(** * The sandboxed workspace store and the workflow nodes of [agent/graph.py]

    A shallow embedding of the file tools ([safe_path_for_project],
    [write_file], [read_file], [list_files], [run_cmd]) and of the LangGraph
    nodes and routing functions ([planner_agent], [architect_agent],
    [coder_agent], the two approval nodes, the three [route_*] functions),
    followed by the properties of the specification that concern them.

    What lies outside the program is modelled as follows.
    - The file system is a finite map from absolute paths to regular files,
      directories and symbolic links, with POSIX path syntax; [pathlib] and
      [os] calls are functions over it.
    - The reasoning backend is an oracle indexed by the number of the call:
      structured answers for the planner and the architect, and for the
      coder the tool calls made, the exception raised if any, and the
      seconds elapsed.
    - Standard input is a list of lines; what is printed is a list of
      structured lines.
    - LangGraph is the loop that runs a node, overwrites the state keys the
      node returns and follows the outgoing edge. *)

From Stdlib Require Import QArith Ascii String.
From stdpp Require Import base strings list gmap.

Local Open Scope string_scope.
Local Open Scope list_scope.
Local Open Scope Z_scope.

(** ** Python values shared by both layers *)

(** Exceptions the modelled code can raise; all of them are subclasses of
    Python's [Exception]. *)
Inductive exn :=
| ValueError (msg : string)
| RuntimeError (msg : string)
| KeyError (key : string)
| FileNotFoundError
| FileExistsError
| NotADirectoryError
| IsADirectoryError
| TimeoutExpired (cmd : string) (timeout : Z)
| EOFError
| AttributeError (msg : string)
| IndexError
| GraphRecursionError
| InferenceError (msg : string).

Inductive res (A : Type) :=
| Ok (a : A)
| Raise (e : exn).
Arguments Ok {A} a.
Arguments Raise {A} e.

(** ** Paths

    An absolute, parsed path is the list of its components below ["/"];
    the empty list is the file-system root. *)
Abbreviation path := (list string).

Definition slash : ascii := "/"%char.

(** [s.split("/")]. *)
Fixpoint split_slash (s : string) : list string :=
  match s with
  | EmptyString => [EmptyString]
  | String c s' =>
      if Ascii.eqb c slash then EmptyString :: split_slash s'
      else match split_slash s' with
           | [] => [String c EmptyString]
           | w :: ws => String c w :: ws
           end
  end.

Definition is_absolute (s : string) : bool :=
  match s with
  | String c _ => Ascii.eqb c slash
  | EmptyString => false
  end.

(** [sep.join(parts)]. *)
Fixpoint join_with (sep : string) (parts : list string) : string :=
  match parts with
  | [] => ""
  | [w] => w
  | w :: ws => w +:+ sep +:+ join_with sep ws
  end.

(** [str(p)] for an absolute path. *)
Definition str_abs (p : path) : string := "/" +:+ join_with "/" p.

(** [str(p)] for a relative path; the empty relative path prints as ["."]. *)
Definition str_rel (p : list string) : string :=
  match p with
  | [] => "."
  | _ => join_with "/" p
  end.

(** [p.parent]: the root is its own parent. *)
Definition parent (p : path) : path := removelast p.

(** [p.parents]: every proper ancestor, nearest first. *)
Fixpoint parents_rev (rp : list string) : list path :=
  match rp with
  | [] => []
  | _ :: rp' => rev rp' :: parents_rev rp'
  end.
Definition parents (p : path) : list path := parents_rev (rev p).

(** [f.relative_to(base)]: the components of [f] below [base], or
    [ValueError] when [base] is not a prefix of [f]. *)
Fixpoint relative_to (f base : list string) {struct base}
    : res (list string) :=
  match base with
  | [] => Ok f
  | b :: base' =>
      match f with
      | c :: f' => if decide (c = b) then relative_to f' base'
                   else Raise (ValueError "is not in the subpath")
      | [] => Raise (ValueError "is not in the subpath")
      end
  end.

(** ** The file system *)

Inductive node :=
| RegularFile (content : string)
| Dir
| Symlink (target : string).

#[global] Instance node_eq_dec : EqDecision node.
Proof. solve_decision. Defined.

(** A snapshot maps canonical absolute paths to nodes.  The root directory
    always exists and is not stored. *)
Definition lstat (fs : gmap path node) (p : path) : option node :=
  match p with
  | [] => Some Dir
  | _ => fs !! p
  end.

(** [os.path.realpath] (non-strict), following [posixpath._joinrealpath]:
    components are consumed left to right; [""] and ["."] are skipped,
    [".."] drops the last resolved component, a symbolic link is replaced by
    its resolved target (resolved from the root when the target is absolute,
    from the directory holding the link otherwise).  [seen] holds the links
    whose resolution is in progress; meeting one of them again is a symlink
    loop, reported as [None].  The recursion depth is bounded by the number
    of links, hence by [fuel] when it starts at the size of the snapshot. *)
Fixpoint joinrealpath (fuel : nat) (fs : gmap path node) (seen : list path)
    (acc : path) (rest : list string) {struct fuel} : option path :=
  (fix go (acc : path) (rest : list string) {struct rest} : option path :=
     match rest with
     | [] => Some acc
     | name :: rest' =>
         if decide (name = "" ∨ name = ".") then go acc rest'
         else if decide (name = "..") then go (removelast acc) rest'
         else
           let newpath := acc ++ [name] in
           match lstat fs newpath with
           | Some (Symlink target) =>
               if decide (newpath ∈ seen) then None
               else match fuel with
                    | O => None
                    | S fuel' =>
                        match joinrealpath fuel' fs (newpath :: seen)
                                (if is_absolute target then [] else acc)
                                (split_slash target) with
                        | Some acc' => go acc' rest'
                        | None => None
                        end
                    end
           | _ => go newpath rest'
           end
     end) acc rest.

Definition realpath (fs : gmap path node) (p : list string) : option path :=
  joinrealpath (S (size fs)) fs [] [] p.

(** [Path.resolve()]: a symlink loop surfaces as [RuntimeError]. *)
Definition resolve (fs : gmap path node) (p : list string) : res path :=
  match realpath fs p with
  | Some q => Ok q
  | None => Raise (RuntimeError "Symlink loop")
  end.

(** [stat]: like [lstat], but a symbolic link in final position is
    followed. *)
Definition stat (fs : gmap path node) (p : path) : option node :=
  match lstat fs p with
  | Some (Symlink _) =>
      match realpath fs p with
      | Some q => lstat fs q
      | None => None
      end
  | o => o
  end.

(** ** The store monad

    Tools run against a snapshot of the file system and leave a trace of the
    storage primitives they invoke, oldest first. *)

Inductive StoreEvent :=
| EvMkdir (p : path)
| EvOpenWrite (p : path)
| EvOpenRead (p : path)
| EvExists (p : path)
| EvIsDir (p : path)
| EvIsFile (p : path)
| EvGlob (p : path)
| EvSpawn (cmd : string) (cwd : path)
| EvKill (cmd : string).

Record Store := mkStore {
  files : gmap path node;
  trace : list StoreEvent
}.

(** Computations over a state [S] that return a value or raise. *)
Definition ST (S A : Type) : Type := S → S * res A.

Definition ret {S A} (a : A) : ST S A := λ s, (s, Ok a).
Definition raise {S A} (e : exn) : ST S A := λ s, (s, Raise e).
Definition bind {S A B} (m : ST S A) (k : A → ST S B) : ST S B :=
  λ s, match m s with
       | (s', Ok a) => k a s'
       | (s', Raise e) => (s', Raise e)
       end.
Definition lift_res {S A} (r : res A) : ST S A := λ s, (s, r).

Abbreviation M := (ST Store).

Declare Scope store_scope.
Delimit Scope store_scope with store.
Notation "'let!' x ':=' m 'in' k" := (bind m (λ x, k))
  (at level 10, x name, m at level 100, k at level 200) : store_scope.
Notation "m ';;' k" := (bind m (λ _, k))
  (at level 100, k at level 200, right associativity) : store_scope.
Local Open Scope store_scope.

Definition log (e : StoreEvent) : M unit :=
  λ s, (mkStore (files s) (trace s ++ [e]), Ok tt).
Definition get_files : M (gmap path node) := λ s, (s, Ok (files s)).
Definition put_files (fs : gmap path node) : M unit :=
  λ s, (mkStore fs (trace s), Ok tt).

(** *** Storage primitives

    Directory components are looked up as they are written; a symbolic link
    is followed in final position only.  The store hands these primitives
    resolved paths (see [safe_path_canonical] below). *)

(** [os.mkdir(d)]. *)
Definition os_mkdir (d : path) : M unit :=
  log (EvMkdir d);;
  let! fs := get_files in
  match lstat fs d with
  | Some _ => raise FileExistsError
  | None =>
      match lstat fs (parent d) with
      | Some Dir => put_files (<[d := Dir]> fs)
      | None => raise FileNotFoundError
      | Some _ => raise NotADirectoryError
      end
  end.

(** [p.is_dir()], [p.is_file()], [p.exists()]. *)
Definition is_dir (p : path) : M bool :=
  log (EvIsDir p);;
  let! fs := get_files in
  ret (match stat fs p with Some Dir => true | _ => false end).

Definition is_file (p : path) : M bool :=
  log (EvIsFile p);;
  let! fs := get_files in
  ret (match stat fs p with Some (RegularFile _) => true | _ => false end).

Definition exists_ (p : path) : M bool :=
  log (EvExists p);;
  let! fs := get_files in
  ret (match stat fs p with Some _ => true | None => false end).

(** [Path.mkdir(parents=False, exist_ok=True)]: [FileNotFoundError] is
    re-raised; any other [OSError] is swallowed when the path is a
    directory. *)
Definition mkdir_exist_ok (d : path) : M unit :=
  λ s, match os_mkdir d s with
       | (s', Ok u) => (s', Ok u)
       | (s', Raise FileNotFoundError) => (s', Raise FileNotFoundError)
       | (s', Raise e) =>
           match is_dir d s' with
           | (s'', Ok true) => (s'', Ok tt)
           | (s'', Ok false) => (s'', Raise e)
           | (s'', Raise e') => (s'', Raise e')
           end
       end.

(** [Path.mkdir(parents=True, exist_ok=True)], on the reversed path so that
    the recursion on [self.parent] is structural. *)
Fixpoint mkdir_parents_rev (rd : list string) : M unit :=
  λ s, match os_mkdir (rev rd) s with
       | (s', Ok u) => (s', Ok u)
       | (s', Raise FileNotFoundError) =>
           match rd with
           | [] => (s', Raise FileNotFoundError)
           | _ :: rparent =>
               (mkdir_parents_rev rparent;; mkdir_exist_ok (rev rd)) s'
           end
       | (s', Raise e) =>
           match is_dir (rev rd) s' with
           | (s'', Ok true) => (s'', Ok tt)
           | (s'', Ok false) => (s'', Raise e)
           | (s'', Raise e') => (s'', Raise e')
           end
       end.

Definition mkdir_parents (d : path) : M unit := mkdir_parents_rev (rev d).

(** Text files.  Characters are the 8-bit characters of [string]; the UTF-8
    codec is transparent on them.  Writing with [newline=None] on POSIX
    leaves the text as it is; reading with [newline=None] turns ["\r\n"] and
    a lone ["\r"] into ["\n"]. *)
Definition CR : ascii := ascii_of_nat 13.
Definition LF : ascii := ascii_of_nat 10.

Fixpoint universal_newlines (s : string) : string :=
  match s with
  | EmptyString => EmptyString
  | String c rest =>
      if Ascii.eqb c CR then
        match rest with
        | String d rest' =>
            if Ascii.eqb d LF then String LF (universal_newlines rest')
            else String LF (universal_newlines rest)
        | EmptyString => String LF EmptyString
        end
      else String c (universal_newlines rest)
  end.

(** The location an [open] acts on: a link in final position is followed. *)
Definition follow_final (fs : gmap path node) (p : path) : res path :=
  match lstat fs p with
  | Some (Symlink _) =>
      match realpath fs p with
      | Some q => Ok q
      | None => Raise (RuntimeError "ELOOP")
      end
  | _ => Ok p
  end.

(** [with open(p, "w", encoding="utf-8") as f: f.write(content)]. *)
Definition open_write (p : path) (content : string) : M unit :=
  log (EvOpenWrite p);;
  let! fs := get_files in
  let! q := lift_res (follow_final fs p) in
  match lstat fs q with
  | Some Dir => raise IsADirectoryError
  | Some (Symlink _) => raise (RuntimeError "ELOOP")
  | _ =>
      match lstat fs (parent q) with
      | Some Dir => put_files (<[q := RegularFile content]> fs)
      | None => raise FileNotFoundError
      | Some _ => raise NotADirectoryError
      end
  end.

(** [with open(p, "r", encoding="utf-8") as f: return f.read()]. *)
Definition open_read (p : path) : M string :=
  log (EvOpenRead p);;
  let! fs := get_files in
  match stat fs p with
  | Some (RegularFile c) => ret (universal_newlines c)
  | Some Dir => raise IsADirectoryError
  | Some (Symlink _) => raise (RuntimeError "ELOOP")
  | None => raise FileNotFoundError
  end.

(** [p.glob("**/*")]: every entry strictly below [p] that is reached from
    [p] through directories; the recursive wildcard does not descend into
    symbolic links.  The order is the snapshot's enumeration order. *)
Definition reached_from (fs : gmap path node) (p q : path) : bool :=
  forallb (λ d, bool_decide (p `prefix_of` d → lstat fs d = Some Dir))
          (parents q).

Definition glob_all (p : path) : M (list path) :=
  log (EvGlob p);;
  let! fs := get_files in
  ret (filter (λ q, p `prefix_of` q ∧ p ≠ q ∧ reached_from fs p q = true)
              (map fst (map_to_list fs))).

(** What a child process does, as far as [subprocess.run] can tell: how long
    it runs, what it returns, and what it has done to the file system when
    it exits or is killed. *)
Record Child := mkChild {
  duration : Q;
  returncode : Z;
  child_stdout : string;
  child_stderr : string;
  child_effect : gmap path node → gmap path node
}.

(** [subprocess.run(cmd, shell=True, cwd=cwd, capture_output=True,
    text=True, timeout=timeout)]: on expiry the child is killed and
    [TimeoutExpired] is raised. *)
Definition subprocess_run (cmd : string) (cwd : path) (timeout : Z)
    (child : Child) : M (Z * string * string) :=
  let! d := is_dir cwd in
  if negb d then raise FileNotFoundError
  else
    log (EvSpawn cmd cwd);;
    let! fs := get_files in
    put_files (child_effect child fs);;
    if Qlt_le_dec (inject_Z timeout) (duration child) then
      log (EvKill cmd);;
      raise (TimeoutExpired cmd timeout)
    else ret (returncode child, child_stdout child, child_stderr child).

(** ** The file tools of [graph.py] *)

Section Tools.
(** [pathlib.Path.cwd()] when the module is loaded. *)
Variable cwd : path.

Definition PROJECT_ROOT : path := cwd ++ ["generated_project"].

(** [base / s]: an absolute right operand replaces the left one. *)
Definition joinpath (base : path) (s : string) : list string :=
  if is_absolute s then split_slash s else base ++ split_slash s.

Definition safe_path_for_project (path_ : string) : M path :=
  let! fs := get_files in
  let! p := lift_res (resolve fs (joinpath PROJECT_ROOT path_)) in
  let! r := lift_res (resolve fs PROJECT_ROOT) in
  if bool_decide (r ∉ parents p) && bool_decide (r ≠ parent p)
     && bool_decide (r ≠ p)
  then raise (ValueError "Attempt to write outside project root")
  else ret p.

Definition write_file (path_ content : string) : M string :=
  let! p := safe_path_for_project path_ in
  mkdir_parents (parent p);;
  open_write p content;;
  ret ("WROTE:" +:+ str_abs p).

Definition read_file (path_ : string) : M string :=
  let! p := safe_path_for_project path_ in
  let! e := exists_ p in
  if negb e then ret ""
  else open_read p.

Definition get_current_directory : M string := ret (str_abs PROJECT_ROOT).

(** [[str(f.relative_to(PROJECT_ROOT)) for f in entries if f.is_file()]]. *)
Fixpoint relative_files (entries : list path) : M (list string) :=
  match entries with
  | [] => ret []
  | f :: rest =>
      let! b := is_file f in
      if b then
        let! r := lift_res (relative_to f PROJECT_ROOT) in
        let! rs := relative_files rest in
        ret (str_rel r :: rs)
      else relative_files rest
  end.

Definition newline : string := String LF EmptyString.

Definition list_files (directory : string) : M string :=
  let! p := safe_path_for_project directory in
  let! d := is_dir p in
  if negb d then ret ("ERROR: " +:+ str_abs p +:+ " is not a directory")
  else
    let! entries := glob_all p in
    let! fls := relative_files entries in
    ret (match fls with
         | [] => "No files found."
         | _ => join_with newline fls
         end).

(** [safe_path_for_project(cwd) if cwd else PROJECT_ROOT]; [cwd_arg] is
    [None] for Python's [None], and an empty string is falsy too. *)
Definition run_cwd (cwd_arg : option string) : M path :=
  match cwd_arg with
  | Some c => if bool_decide (c = "") then ret PROJECT_ROOT
              else safe_path_for_project c
  | None => ret PROJECT_ROOT
  end.

Definition run_cmd (cmd : string) (cwd_arg : option string) (timeout : Z)
    (child : Child) : M (Z * string * string) :=
  let! cwd_dir := run_cwd cwd_arg in
  subprocess_run cmd cwd_dir timeout child.

(** [init_project_root]: [PROJECT_ROOT.mkdir(parents=True, exist_ok=True)]. *)
Definition init_project_root : M string :=
  mkdir_parents PROJECT_ROOT;;
  ret (str_abs PROJECT_ROOT).
End Tools.


(** ** Python string helpers used by the nodes *)

(** [str.isspace] on the ASCII range: tab, line feed, vertical tab, form
    feed, carriage return, the four separators 28..31 and the space.
    Characters outside ASCII are treated as neither spaces nor cased. *)
Definition is_space (c : ascii) : bool :=
  let n := nat_of_ascii c in
  ((9 <=? n) && (n <=? 13) || (28 <=? n) && (n <=? 32))%nat.

Fixpoint lstrip (s : string) : string :=
  match s with
  | String c s' => if is_space c then lstrip s' else s
  | EmptyString => EmptyString
  end.

Definition rev_string (s : string) : string :=
  string_of_list_ascii (rev (list_ascii_of_string s)).

(** [s.strip()]. *)
Definition strip (s : string) : string :=
  rev_string (lstrip (rev_string (lstrip s))).

Definition lower_char (c : ascii) : ascii :=
  let n := nat_of_ascii c in
  if ((65 <=? n) && (n <=? 90))%nat then ascii_of_nat (n + 32) else c.

(** [s.lower()]. *)
Fixpoint lower (s : string) : string :=
  match s with
  | String c s' => String (lower_char c) (lower s')
  | EmptyString => EmptyString
  end.

(** [s[:n]]. *)
Fixpoint str_take (n : nat) (s : string) : string :=
  match n, s with
  | S n', String c s' => String c (str_take n' s')
  | _, _ => EmptyString
  end.

(** [l[i]] with Python's negative indices; [None] stands for [IndexError]. *)
Definition py_getitem {A} (l : list A) (i : Z) : option A :=
  let n := Z.of_nat (length l) in
  if 0 <=? i then l !! Z.to_nat i
  else if - n <=? i then l !! Z.to_nat (n + i)
  else None.

(** ** State output models *)

Record File := mkFile {
  file_path : string;
  file_purpose : string
}.

Record Plan := mkPlan {
  plan_name : string;
  plan_description : string;
  plan_techstack : string;
  plan_features : list string;
  plan_files : list File
}.

Record ImplementationTask := mkTask {
  filepath : string;
  task_description : string
}.

(** [TaskPlan] allows extra attributes; the architect stores the project
    plan under the extra attribute [plan]. *)
Record TaskPlan := mkTaskPlan {
  implementation_steps : list ImplementationTask;
  extra_plan : option Plan
}.

Record CoderState := mkCoderState {
  cs_task_plan : TaskPlan;
  current_step_idx : Z;
  current_file_content : option string
}.

(** ** State schema

    [GraphState] is a [TypedDict] with [total=False]: every key may be
    absent (outer [None]); a present key may hold Python's [None] (inner
    [None]).  The same type describes the partial dictionaries the nodes
    return. *)
Record GraphState := mkState {
  user_prompt : option (option string);
  plan : option (option Plan);
  task_plan : option (option TaskPlan);
  coder_state : option (option CoderState);
  status : option (option string);
  edit_request : option (option string);
  previous_plan : option (option Plan);
  previous_task_plan : option (option TaskPlan);
  planner_approved : option (option string);
  architect_approved : option (option string)
}.

(** The empty dictionary. *)
Definition empty_state : GraphState :=
  mkState None None None None None None None None None None.

(** [state.get(key)]. *)
Definition get {A} (field : option (option A)) : option A :=
  match field with
  | Some v => v
  | None => None
  end.

(** [state[key]]. *)
Definition getitem {S A} (key : string) (field : option (option A))
    : ST S (option A) :=
  match field with
  | Some v => ret v
  | None => raise (KeyError key)
  end.

(** How LangGraph folds a node's return value into the state: each key of
    the update overwrites the channel of the same name. *)
Definition overwrite {A} (new old : option A) : option A :=
  match new with
  | Some v => Some v
  | None => old
  end.

Definition merge (st upd : GraphState) : GraphState :=
  {| user_prompt := overwrite (user_prompt upd) (user_prompt st);
     plan := overwrite (plan upd) (plan st);
     task_plan := overwrite (task_plan upd) (task_plan st);
     coder_state := overwrite (coder_state upd) (coder_state st);
     status := overwrite (status upd) (status st);
     edit_request := overwrite (edit_request upd) (edit_request st);
     previous_plan := overwrite (previous_plan upd) (previous_plan st);
     previous_task_plan :=
       overwrite (previous_task_plan upd) (previous_task_plan st);
     planner_approved :=
       overwrite (planner_approved upd) (planner_approved st);
     architect_approved :=
       overwrite (architect_approved upd) (architect_approved st) |}.

(** ** The environment of a run *)

(** What is sent to the reasoning backend.  The prompts that embed JSON
    dumps are kept structured. *)
Inductive Prompt :=
| PlannerPrompt (user_prompt : option string)
| PlanRevisionPrompt (previous : Plan) (edit : string)
| ArchitectPrompt (plan : Plan)
| TaskPlanRevisionPrompt (previous : TaskPlan) (edit : string) (plan : Plan)
| CoderMessages (system user : string).

(** A tool call the backend makes while it serves [react_agent.invoke];
    the coder agent is given exactly these four tools. *)
Inductive ToolCall :=
| CallReadFile (path_ : string)
| CallWriteFile (path_ content : string)
| CallListFiles (directory : string)
| CallGetCurrentDirectory.

(** One [react_agent.invoke]: the tool calls made, whether the call raised,
    and the wall-clock seconds between the two readings of [time.time()]. *)
Record Invocation := mkInvocation {
  tool_calls : list ToolCall;
  raised : option exn;
  elapsed : Q
}.

(** The backend answers its n-th call, counted over the whole run. *)
Record Backend := mkBackend {
  structured_plan : nat → res (option Plan);
  structured_task_plan : nat → res (option TaskPlan);
  tool_run : nat → Invocation
}.

(** Lines written with [print]; each constructor stands for one call. *)
Inductive Print :=
| PrintPlannerDone
| PrintArchitectDone (steps : nat)
| PrintAllStepsCompleted
| PrintStep (step_num total_steps : Z) (filepath : string)
| PrintTask (head : string)
| PrintStepError (e : exn)
| PrintStepCompleted (elapsed : Q)
| PrintTimeoutExceeded
| PrintPlanReviewHeader
| PrintPlanDump (plan : option Plan)
| PrintApprovePlanPrompt
| PrintTaskPlanReviewHeader
| PrintStepReview (i : nat) (filepath head : string)
| PrintApproveTaskPlanPrompt
| PrintEditPrompt
| PrintNoEdits
| PrintApplyingEdits (edits : string).

Record Env := mkEnv {
  store : Store;
  stdin : list string;
  stdout : list Print;
  backend : Backend;
  sent : list Prompt
}.

Abbreviation W := (ST Env).

Definition print (p : Print) : W unit :=
  λ e, (mkEnv (store e) (stdin e) (stdout e ++ [p]) (backend e) (sent e),
        Ok tt).

(** [input()]: the next line of standard input, [EOFError] at its end. *)
Definition input : W string :=
  λ e, match stdin e with
       | l :: rest =>
           (mkEnv (store e) rest (stdout e) (backend e) (sent e), Ok l)
       | [] => (e, Raise EOFError)
       end.

(** Run a tool against the workspace store. *)
Definition on_store {A} (m : M A) : W A :=
  λ e, let (s', r) := m (store e) in
       (mkEnv s' (stdin e) (stdout e) (backend e) (sent e), r).

(** Send a prompt; the answer is the backend's answer to call number
    [length (sent e)]. *)
Definition ask {A} (answer : Backend → nat → A) (p : Prompt) : W A :=
  λ e, (mkEnv (store e) (stdin e) (stdout e) (backend e) (sent e ++ [p]),
        Ok (answer (backend e) (length (sent e)))).

(** ** Agent nodes *)

Section Workflow.
Variable cwd : path.

Definition coder_system_prompt : string :=
  "
        You are the CODER agent.
        You are implementing a specific engineering task.
        You have access to tools to read and write files.

        Always:
        - Review all existing files to maintain compatibility.
        - Implement the FULL file content, integrating with other modules.
        - Maintain consistent naming of variables, functions, and imports.
        - When a module is imported from another file, ensure it exists and is implemented as described.
    ".

(** Truth value of an optional string: [None] and [""] are falsy. *)
Definition truthy (s : option string) : bool :=
  match s with
  | Some s => negb (bool_decide (s = ""))
  | None => false
  end.

(** The request [planner_agent] builds: a revision of the saved plan when
    an edit is pending, the planner prompt otherwise. *)
Definition planner_request (state : GraphState) : Prompt :=
  let user_prompt_ := get (user_prompt state) in
  let edit_request_ := get (edit_request state) in
  let previous_plan_ := get (previous_plan state) in
  match edit_request_, previous_plan_ with
  | Some e, Some prev =>
      if truthy (Some e) then PlanRevisionPrompt prev e
      else PlannerPrompt user_prompt_
  | _, _ => PlannerPrompt user_prompt_
  end.

(** The dictionary [planner_agent] returns. *)
Definition planner_update (user_prompt_ : option string) (message : Plan)
    : GraphState :=
  {| user_prompt := Some user_prompt_;
     plan := Some (Some message);
     task_plan := None;
     coder_state := None;
     status := None;
     edit_request := Some None;
     previous_plan := Some None;
     previous_task_plan := None;
     planner_approved := None;
     architect_approved := None |}.

Definition planner_agent (state : GraphState) : W GraphState :=
  let user_prompt_ := get (user_prompt state) in
  let! answer := ask structured_plan (planner_request state) in
  let! message := lift_res answer in
  match message with
  | None => raise (ValueError "Planner did not return a valid response.")
  | Some message =>
      print PrintPlannerDone;;
      ret (planner_update user_prompt_ message)
  end.

Definition architect_request (state : GraphState) (plan_ : Plan)
    : Prompt :=
  let edit_request_ := get (edit_request state) in
  let previous_task_plan_ := get (previous_task_plan state) in
  match edit_request_, previous_task_plan_ with
  | Some e, Some prev =>
      if truthy (Some e) then TaskPlanRevisionPrompt prev e plan_
      else ArchitectPrompt plan_
  | _, _ => ArchitectPrompt plan_
  end.

(** The dictionary [architect_agent] returns; [message.plan = plan] has
    been executed on the task plan. *)
Definition architect_update (message : TaskPlan) (plan_ : Plan)
    : GraphState :=
  {| user_prompt := None;
     plan := None;
     task_plan :=
       Some (Some (mkTaskPlan (implementation_steps message)
                              (Some plan_)));
     coder_state := None;
     status := None;
     edit_request := Some None;
     previous_plan := None;
     previous_task_plan := Some None;
     planner_approved := None;
     architect_approved := None |}.

Definition architect_agent (state : GraphState) : W GraphState :=
  let! plan_ := getitem "plan" (plan state) in
  match plan_ with
  | None => raise (AttributeError "model_dump_json")
  | Some plan_ =>
      let! answer :=
        ask structured_task_plan (architect_request state plan_) in
      let! message := lift_res answer in
      match message with
      | None =>
          raise (ValueError "Architect did not return a valid response.")
      | Some message =>
          print (PrintArchitectDone
                   (length (implementation_steps message)));;
          ret (architect_update message plan_)
      end
  end.

(** A tool call made by the backend: its effect on the store stays, its
    result (or exception) goes back to the backend. *)
Definition run_tool (tc : ToolCall) : M unit :=
  λ s, let m := match tc with
                | CallReadFile p => read_file cwd p
                | CallWriteFile p c => write_file cwd p c
                | CallListFiles d => list_files cwd d
                | CallGetCurrentDirectory => get_current_directory cwd
                end in
       (fst (m s), Ok tt).

Fixpoint run_tools (tcs : list ToolCall) : M unit :=
  match tcs with
  | [] => ret tt
  | tc :: rest => run_tool tc;; run_tools rest
  end.

Definition TIMEOUT_SECONDS : Q := 120.

Definition coder_user_prompt (task : ImplementationTask)
    (existing_content : string) : string :=
  "Task: " +:+ task_description task +:+ newline
  +:+ "File: " +:+ filepath task +:+ newline
  +:+ "Existing content:" +:+ newline +:+ existing_content +:+ newline
  +:+ "Use write_file(path, content) to save your changes.".

(** The dictionaries [coder_agent] returns. *)
Definition coder_update (cs : CoderState) (st : option string)
    : GraphState :=
  {| user_prompt := None;
     plan := None;
     task_plan := None;
     coder_state := Some (Some cs);
     status := match st with Some s => Some (Some s) | None => None end;
     edit_request := None;
     previous_plan := None;
     previous_task_plan := None;
     planner_approved := None;
     architect_approved := None |}.

Definition coder_agent (state : GraphState) : W GraphState :=
  let! cs :=
    match get (coder_state state) with
    | Some cs => ret cs
    | None =>
        let! tp := getitem "task_plan" (task_plan state) in
        match tp with
        | Some tp => ret (mkCoderState tp 0 None)
        | None => raise (ValueError "task_plan: validation error")
        end
    end in
  let steps := implementation_steps (cs_task_plan cs) in
  let total_steps := Z.of_nat (length steps) in
  if total_steps <=? current_step_idx cs then
    print PrintAllStepsCompleted;;
    ret (coder_update cs (Some "DONE"))
  else
    match py_getitem steps (current_step_idx cs) with
    | None => raise IndexError
    | Some current_task =>
        let step_num := current_step_idx cs + 1 in
        print (PrintStep step_num total_steps (filepath current_task));;
        print (PrintTask (str_take 120 (task_description current_task)));;
        let! existing_content :=
          on_store (read_file cwd (filepath current_task)) in
        let! inv :=
          ask tool_run
              (CoderMessages coder_system_prompt
                 (coder_user_prompt current_task existing_content)) in
        on_store (run_tools (tool_calls inv));;
        match raised inv with
        | Some e => print (PrintStepError e)
        | None => ret tt
        end;;
        print (PrintStepCompleted (elapsed inv));;
        let cs' := mkCoderState (cs_task_plan cs)
                                (current_step_idx cs + 1)
                                (current_file_content cs) in
        if Qlt_le_dec TIMEOUT_SECONDS (elapsed inv) then
          print PrintTimeoutExceeded;;
          ret (coder_update cs' (Some "DONE"))
        else ret (coder_update cs' None)
    end.

(** ** Approval nodes *)

Definition approval_update_planner (v : string) (edit : option string)
    (prev : option Plan) : GraphState :=
  {| user_prompt := None;
     plan := None;
     task_plan := None;
     coder_state := None;
     status := None;
     edit_request :=
       match edit with Some e => Some (Some e) | None => None end;
     previous_plan :=
       match edit with Some _ => Some prev | None => None end;
     previous_task_plan := None;
     planner_approved := Some (Some v);
     architect_approved := None |}.

Definition approval_planner_node (state : GraphState) : W GraphState :=
  let plan_ := get (plan state) in
  print PrintPlanReviewHeader;;
  print (PrintPlanDump plan_);;
  print PrintApprovePlanPrompt;;
  let! line := input in
  let approved := lower (strip line) in
  if bool_decide (approved = "edit") then
    print PrintEditPrompt;;
    let! line2 := input in
    let edit_instructions := strip line2 in
    if negb (truthy (Some edit_instructions)) then
      print PrintNoEdits;;
      ret (approval_update_planner "yes" None None)
    else
      print (PrintApplyingEdits edit_instructions);;
      ret (approval_update_planner "edit" (Some edit_instructions) plan_)
  else ret (approval_update_planner "yes" None None).

Definition approval_update_architect (v : string) (edit : option string)
    (prev : option TaskPlan) : GraphState :=
  {| user_prompt := None;
     plan := None;
     task_plan := None;
     coder_state := None;
     status := None;
     edit_request :=
       match edit with Some e => Some (Some e) | None => None end;
     previous_plan := None;
     previous_task_plan :=
       match edit with Some _ => Some prev | None => None end;
     planner_approved := None;
     architect_approved := Some (Some v) |}.

(** The [for i, step in enumerate(steps, 1)] loop of the review. *)
Fixpoint print_steps (i : nat) (steps : list ImplementationTask)
    : W unit :=
  match steps with
  | [] => ret tt
  | step :: rest =>
      print (PrintStepReview i (filepath step)
               (str_take 300 (task_description step)));;
      print_steps (S i) rest
  end.

Definition approval_architect_node (state : GraphState) : W GraphState :=
  let task_plan_ := get (task_plan state) in
  print PrintTaskPlanReviewHeader;;
  match task_plan_ with
  | None => raise (AttributeError "implementation_steps")
  | Some tp =>
      print_steps 1 (implementation_steps tp);;
      print PrintApproveTaskPlanPrompt;;
      let! line := input in
      let approved := lower (strip line) in
      if bool_decide (approved = "edit") then
        print PrintEditPrompt;;
        let! line2 := input in
        let edit_instructions := strip line2 in
        if negb (truthy (Some edit_instructions)) then
          print PrintNoEdits;;
          ret (approval_update_architect "yes" None None)
        else
          print (PrintApplyingEdits edit_instructions);;
          ret (approval_update_architect "edit" (Some edit_instructions)
                 task_plan_)
      else ret (approval_update_architect "yes" None None)
  end.

(** ** Routing functions *)

Definition route_planner_approval (state : GraphState) : string :=
  if bool_decide (get (planner_approved state) = Some "edit")
  then "planner" else "architect".

Definition route_architect_approval (state : GraphState) : string :=
  if bool_decide (get (architect_approved state) = Some "edit")
  then "architect" else "coder".

Definition route_coder (state : GraphState) : string :=
  if bool_decide (get (status state) = Some "DONE")
  then "__end__" else "coder".

(** ** Graph setup *)

Inductive Node :=
| planner
| approval_planner
| architect
| approval_architect
| coder
| END.

Definition node_fn (n : Node) : GraphState → W GraphState :=
  match n with
  | planner => planner_agent
  | approval_planner => approval_planner_node
  | architect => architect_agent
  | approval_architect => approval_architect_node
  | coder => coder_agent
  | END => λ _, ret empty_state
  end.

(** [add_conditional_edges(source, route, path_map)]. *)
Definition conditional (route : GraphState → string)
    (path_map : list (string * Node)) (st : GraphState) : res Node :=
  match list_find (λ kv, fst kv = route st) path_map with
  | Some (_, (_, n)) => Ok n
  | None => Raise (KeyError (route st))
  end.

Definition next (n : Node) (st : GraphState) : res Node :=
  match n with
  | planner => Ok approval_planner
  | architect => Ok approval_architect
  | approval_planner =>
      conditional route_planner_approval
        [("architect", architect); ("planner", planner)] st
  | approval_architect =>
      conditional route_architect_approval
        [("coder", coder); ("architect", architect)] st
  | coder =>
      conditional route_coder [("coder", coder); ("__end__", END)] st
  | END => Ok END
  end.

(** One super-step: run the node, fold its update into the state, follow
    the outgoing edge. *)
Definition step (n : Node) (st : GraphState) : W (Node * GraphState) :=
  let! upd := node_fn n st in
  let st' := merge st upd in
  let! n' := lift_res (next n st') in
  ret (n', st').

(** [k] super-steps, or fewer when [END] is reached. *)
Fixpoint steps (k : nat) (n : Node) (st : GraphState)
    : W (Node * GraphState) :=
  match k with
  | O => ret (n, st)
  | S k' =>
      match n with
      | END => ret (n, st)
      | _ => let! c := step n st in steps k' (fst c) (snd c)
      end
  end.

(** [agent.invoke(input)] under a recursion limit: the entry point is the
    planner; a run that has not ended within the limit raises. *)
Definition agent_invoke (recursion_limit : nat) (input_ : GraphState)
    : W GraphState :=
  let! c := steps recursion_limit planner input_ in
  match fst c with
  | END => ret (snd c)
  | _ => raise GraphRecursionError
  end.
End Workflow.

(** What the approval nodes return on approval. *)
Definition yes_planner : GraphState :=
  approval_update_planner "yes" None None.
Definition yes_architect : GraphState :=
  approval_update_architect "yes" None None.

(** [agent.invoke({"user_prompt": user_input})] starts from a dictionary
    that holds the request only. *)
Definition initial_state (user_input : string) : GraphState :=
  mkState (Some (Some user_input)) None None None None None None None None
          None.

(** The configurations a run can be in: the node about to execute and the
    state it will receive. *)
Inductive reachable (cwd : path) : Node → GraphState → Prop :=
| reach_init user_input :
    reachable cwd planner (initial_state user_input)
| reach_step n st e e' n' st' :
    reachable cwd n st →
    step cwd n st e = (e', Ok (n', st')) →
    reachable cwd n' st'.

(** No revision is pending. *)
Definition clear (st : GraphState) : Prop :=
  get (edit_request st) = None ∧ get (previous_plan st) = None
  ∧ get (previous_task_plan st) = None.

(** A revision of the plan is pending: the edit text is not empty and the
    saved prior plan is the current plan. *)
Definition plan_revision_pending (st : GraphState) : Prop :=
  ∃ e p, e ≠ "" ∧ get (edit_request st) = Some e
         ∧ get (previous_plan st) = Some p ∧ get (plan st) = Some p
         ∧ get (previous_task_plan st) = None.

Definition task_plan_revision_pending (st : GraphState) : Prop :=
  ∃ e tp, e ≠ "" ∧ get (edit_request st) = Some e
          ∧ get (previous_task_plan st) = Some tp
          ∧ get (task_plan st) = Some tp
          ∧ get (previous_plan st) = None.

Definition revision_invariant (n : Node) (st : GraphState) : Prop :=
  match n with
  | planner => clear st ∨ plan_revision_pending st
  | approval_planner => clear st ∧ is_Some (get (plan st))
  | architect => clear st ∨ task_plan_revision_pending st
  | approval_architect | coder | END => clear st
  end.

(** The step cursor a coder invocation works on: the stored one, or a fresh
    one at index 0 over the state's task plan. *)
Definition cursor (st : GraphState) : option CoderState :=
  match get (coder_state st) with
  | Some cs => Some cs
  | None =>
      match get (task_plan st) with
      | Some tp => Some (mkCoderState tp 0 None)
      | None => None
      end
  end.

Definition advance (cs : CoderState) : CoderState :=
  mkCoderState (cs_task_plan cs) (current_step_idx cs + 1)
               (current_file_content cs).

Definition total_steps (cs : CoderState) : Z :=
  Z.of_nat (length (implementation_steps (cs_task_plan cs))).

(** ** Sample data for the worked examples *)

Definition home : path := ["home"; "dev"].

(** A workspace that holds nothing yet. *)
Definition sample_fs : gmap path node :=
  list_to_map [ (["home"], Dir); (["home"; "dev"], Dir);
                (["home"; "dev"; "generated_project"], Dir) ].

Definition sample_plan : Plan :=
  mkPlan "notes" "A note taking app" "python" ["add a note"]
         [mkFile "main.py" "entry point"; mkFile "notes.py" "storage"].

Definition one_step : TaskPlan :=
  mkTaskPlan [mkTask "main.py" "write the entry point"] (Some sample_plan).

Definition two_steps : TaskPlan :=
  mkTaskPlan [mkTask "notes.py" "write the storage module";
              mkTask "main.py" "write the entry point"]
             (Some sample_plan).

(** A backend whose tool-using calls all behave like [inv]. *)
Definition constant_backend (inv : Invocation) : Backend :=
  mkBackend (λ _, Ok (Some sample_plan)) (λ _, Ok (Some two_steps))
            (λ _, inv).

Definition quick_call : Invocation :=
  mkInvocation [CallWriteFile "main.py" "print(1)"] None 3.

(** The backend fails after 121 seconds. *)
Definition slow_failure : Invocation :=
  mkInvocation [] (Some (InferenceError "overloaded")) 121.

Definition quick_failure : Invocation :=
  mkInvocation [] (Some (InferenceError "overloaded")) 2.

Definition sample_env (inv : Invocation) (lines : list string) : Env :=
  mkEnv (mkStore sample_fs []) lines [] (constant_backend inv) [].

(** The state in which the coding stage is entered. *)
Definition coding_state (tp : TaskPlan) : GraphState :=
  mkState (Some (Some "a note taking app")) (Some (Some sample_plan))
          (Some (Some tp)) None None (Some None) None (Some None)
          (Some (Some "yes")) (Some (Some "yes")).

(** A workspace with a file, a directory and a link that leaves it. *)
Definition linked_fs : gmap path node :=
  list_to_map [ (["home"], Dir); (["home"; "dev"], Dir);
                (["home"; "dev"; "generated_project"], Dir);
                (["home"; "dev"; "generated_project"; "src"], Dir);
                (["home"; "dev"; "generated_project"; "src"; "app.py"],
                 RegularFile "print(1)");
                (["home"; "dev"; "generated_project"; "out"],
                 Symlink "/etc");
                (["etc"], Dir); (["etc"; "passwd"], RegularFile "root") ].

Definition escape_error : exn :=
  ValueError "Attempt to write outside project root".

(** A workspace whose root directory is itself a symbolic link. *)
Definition linked_root_fs : gmap path node :=
  list_to_map [ (["home"], Dir); (["home"; "dev"], Dir);
                (["home"; "dev"; "generated_project"], Symlink "/srv/ws");
                (["srv"], Dir); (["srv"; "ws"], Dir);
                (["srv"; "ws"; "a.txt"], RegularFile "a") ].

(** A child process that runs for five seconds and changes nothing. *)
Definition sleeper : Child := mkChild 5 0 "" "" (λ fs, fs).





(** The target of the symbolic link at [q], if there is one there. *)
Definition readlink (fs : gmap path node) (q : path) : option string :=
  match lstat fs q with
  | Some (Symlink t) => Some t
  | _ => None
  end.

(** No component of [p] is a symbolic link. *)
Definition link_free (fs : gmap path node) (p : path) : Prop :=
  ∀ q, q `prefix_of` p → readlink fs q = None.

(** The parent of every entry of the snapshot is a directory. *)
Definition well_formed (fs : gmap path node) : Prop :=
  map_Forall (λ q _, lstat fs (parent q) = Some Dir) fs.

(** Every component of [d] is a directory or is missing. *)
Definition dirs_or_absent (fs : gmap path node) (d : path) : Prop :=
  ∀ q, q `prefix_of` d → lstat fs q = Some Dir ∨ lstat fs q = None.

(** [fs'] is [fs] with some missing directories created. *)
Definition grown (fs fs' : gmap path node) : Prop :=
  ∀ q : path, fs' !! q = fs !! q ∨ (fs !! q = None ∧ fs' !! q = Some Dir).



(** The state in which the plan is put up for review. *)
Definition review_state : GraphState :=
  mkState (Some (Some "a note taking app")) (Some (Some sample_plan))
          None None None (Some None) (Some None) None None None.

(** The state the planner receives after the human asked for dark mode. *)
Definition pending_state : GraphState :=
  mkState (Some (Some "a note taking app")) (Some (Some sample_plan))
          None None None (Some (Some "add dark mode"))
          (Some (Some sample_plan)) None (Some (Some "edit")) None.

#[global] Instance Node_eq_dec : EqDecision Node.
Proof. solve_decision. Defined.

(** What the [except] clause of [coder_agent] prints for a call. *)
Definition error_print (inv : Invocation) : list Print :=
  match raised inv with
  | Some ex => [PrintStepError ex]
  | None => []
  end.

(** Whether the elapsed time of a call exceeds the ceiling. *)
Definition overrun (inv : Invocation) : bool :=
  if Qlt_le_dec TIMEOUT_SECONDS (elapsed inv) then true else false.

Arguments truthy : simpl never.

(** ** The main loop *)

(** Lines [main] and [display_graph] print; they are kept apart from the
    lines the nodes print. *)
Inductive Console :=
| SayReady
| SayHowToQuit
| SayWhat
| SayUserPrompt
| SayGoodbye
| SayComplete
| SayRunError (e : exn)
| SayGraphHeader
| SayGraphSaved
| SayGraphNeedsInstall
| SayGraphFailed (e : exn)
| SayRule.

(** What [agent.get_graph().draw_mermaid_png()] does: it returns the image,
    raises [ImportError], or raises another exception. *)
Inductive DrawOutcome :=
| DrawPng (img : string)
| DrawImportError
| DrawFails (e : exn).

Record Session := mkSession {
  env : Env;
  console : list Console
}.

Abbreviation T := (ST Session).

Definition say (c : Console) : T unit :=
  λ s, (mkSession (env s) (console s ++ [c]), Ok tt).

(** Run a computation of the workflow inside the session. *)
Definition in_env {A} (m : W A) : T A :=
  λ s, let (e', r) := m (env s) in (mkSession e' (console s), r).

Section Main.
Variable cwd : path.
(** The recursion limit [agent.invoke] runs under. *)
Variable recursion_limit : nat.
(** The outcome of drawing the graph, by the number of lines the session
    has printed when it is asked for. *)
Variable draw : nat → DrawOutcome.

(** The image is written in the working directory of the process, outside
    the file tools. *)
Definition display_graph : T unit :=
  say SayGraphHeader;;
  (λ s, match draw (length (console s)) with
        | DrawPng img =>
            match in_env (on_store
                            (open_write (cwd ++ ["graph_visualization.png"])
                                        img)) s with
            | (s', Ok _) => say SayGraphSaved s'
            | (s', Raise ex) => say (SayGraphFailed ex) s'
            end
        | DrawImportError => say SayGraphNeedsInstall s
        | DrawFails ex => say (SayGraphFailed ex) s
        end);;
  say SayRule.

(** [try: agent.invoke({"user_prompt": user_input}) ... except Exception]. *)
Definition run_request (user_input : string) : T unit :=
  λ s, match in_env (agent_invoke cwd recursion_limit
                       (initial_state user_input)) s with
       | (s', Ok _) => say SayComplete s'
       | (s', Raise ex) => say (SayRunError ex) s'
       end.

(** The [while True] loop; every turn reads a line, so a fuel above the
    number of lines left is never used up.  [None] stands for a loop cut
    short by the fuel, [Some tt] for the [break]. *)
Fixpoint main_loop (fuel : nat) : T (option unit) :=
  match fuel with
  | O => ret None
  | S fuel' =>
      say SayUserPrompt;;
      let! line := in_env input in
      let user_input := strip line in
      if bool_decide (lower user_input ∈ ["exit"; "end"; "quit"]) then
        say SayGoodbye;;
        ret (Some tt)
      else if bool_decide (lower user_input = "graph") then
        display_graph;;
        main_loop fuel'
      else
        run_request user_input;;
        main_loop fuel'
  end.

Definition main : T (option unit) :=
  in_env (on_store (init_project_root cwd));;
  say SayReady;;
  say SayHowToQuit;;
  say SayWhat;;
  (λ s, main_loop (S (length (stdin (env s)))) s).
End Main.

(** ** Definitions for the further properties *)

(** [fs'] is what tools confined to the root [r] may make of [fs]: links
    are as they were, nothing is removed, existing entries outside [r] are
    untouched, and a regular file that is new or has new content lies under
    [r]. *)
Definition confined (r : path) (fs fs' : gmap path node) : Prop :=
  (∀ q, readlink fs' q = readlink fs q)
  ∧ (∀ q, is_Some (fs !! q) → is_Some (fs' !! q))
  ∧ (∀ q n, fs !! q = Some n → ¬ r `prefix_of` q → fs' !! q = Some n)
  ∧ (∀ q c, fs' !! q = Some (RegularFile c) →
            fs !! q ≠ Some (RegularFile c) → r `prefix_of` q).

(** What a store computation may do to a workspace: whenever the root
    resolves, the files it leaves are confined to it. *)
Definition sandboxed (cwd : path) (s s' : Store) : Prop :=
  ∀ r, resolve (files s) (PROJECT_ROOT cwd) = Ok r →
       confined r (files s) (files s').

(** The file system is left as it was. *)
Definition same_files (s s' : Store) : Prop := files s' = files s.

(** How a node may change the environment of a run: the store stays in
    the sandbox, input is consumed from the front, printed lines and sent
    prompts are appended, the backend is the same. *)
Definition evolves (cwd : path) (e e' : Env) : Prop :=
  sandboxed cwd (store e) (store e')
  ∧ stdin e' `suffix_of` stdin e
  ∧ stdout e `prefix_of` stdout e'
  ∧ sent e `prefix_of` sent e'
  ∧ backend e' = backend e.

(** The plan has been approved by the human. *)
Definition approved_plan (st : GraphState) : Prop :=
  get (planner_approved st) = Some "yes" ∧ is_Some (get (plan st)).

(** The task plan, if any, was built from the current plan. *)
Definition task_from_plan (st : GraphState) : Prop :=
  ∀ tp, get (task_plan st) = Some tp → extra_plan tp = get (plan st).

(** The step cursor, if any, is within the task plan of the state. *)
Definition cursor_ok (st : GraphState) : Prop :=
  ∀ cs, get (coder_state st) = Some cs →
        0 ≤ current_step_idx cs ≤ total_steps cs
        ∧ get (task_plan st) = Some (cs_task_plan cs).

(** What holds of the state when a node is about to run. *)
Definition stage_invariant (n : Node) (st : GraphState) : Prop :=
  match n with
  | planner =>
      get (task_plan st) = None ∧ get (coder_state st) = None
  | approval_planner =>
      get (task_plan st) = None ∧ get (coder_state st) = None
      ∧ is_Some (get (plan st))
  | architect =>
      approved_plan st ∧ task_from_plan st ∧ get (coder_state st) = None
  | approval_architect =>
      approved_plan st ∧ task_from_plan st ∧ get (coder_state st) = None
      ∧ is_Some (get (task_plan st))
  | coder | END =>
      approved_plan st ∧ task_from_plan st
      ∧ is_Some (get (task_plan st))
      ∧ get (architect_approved st) = Some "yes"
      ∧ cursor_ok st
  end.

(** The state after the planner, both reviews, the architect and one
    invocation of the coder, in the run of the worked example. *)
Definition coded_state : GraphState :=
  Eval vm_compute in
    match snd (steps home 5 planner (initial_state "a note taking app")
                 (sample_env quick_call ["yes"; "yes"])) with
    | Ok c => snd c
    | Raise _ => empty_state
    end.

(** A backend that gives no structured answer. *)
Definition mute_backend : Backend :=
  mkBackend (λ _, Ok None) (λ _, Ok None) (λ _, quick_call).

(** Standard input cannot serve a review: it is empty, or holds the word
    "edit" and nothing after it. *)
Definition starved (e : Env) : Prop :=
  stdin e = [] ∨ ∃ l1, stdin e = [l1] ∧ lower (strip l1) = "edit".

(** A computation relates the state it starts from to the state it leaves,
    whatever it returns. *)
Definition preserves {S A} (P : S → S → Prop) (m : ST S A) : Prop :=
  ∀ s, P s (fst (m s)).

(** * Properties *)

(** ** Approval nodes *)

Lemma next_planner_yes st :
  next approval_planner (merge st yes_planner) = Ok architect.
Proof. reflexivity. Qed.

Lemma next_architect_yes st :
  next approval_architect (merge st yes_architect) = Ok coder.
Proof. reflexivity. Qed.

Lemma truthy_empty s : truthy (Some s) = false ↔ s = "".
Proof.
  unfold truthy. destruct (bool_decide_reflect (s = "")); cbn; split;
    congruence.
Qed.

Lemma approval_planner_not_edit st e line rest :
  stdin e = line :: rest →
  lower (strip line) ≠ "edit" →
  approval_planner_node st e =
    (mkEnv (store e) rest
       (stdout e ++ [PrintPlanReviewHeader; PrintPlanDump (get (plan st));
                     PrintApprovePlanPrompt])
       (backend e) (sent e), Ok yes_planner).
Proof.
  intros Hin Hne. unfold approval_planner_node, bind, print, input; cbn.
  rewrite Hin; cbn. rewrite bool_decide_eq_false_2 by done.
  unfold ret. by rewrite <- !app_assoc.
Qed.

Lemma approval_planner_edit st e l1 l2 rest :
  stdin e = l1 :: l2 :: rest →
  lower (strip l1) = "edit" →
  approval_planner_node st e =
    if truthy (Some (strip l2)) then
      (mkEnv (store e) rest
         (stdout e ++ [PrintPlanReviewHeader; PrintPlanDump (get (plan st));
                       PrintApprovePlanPrompt; PrintEditPrompt;
                       PrintApplyingEdits (strip l2)])
         (backend e) (sent e),
       Ok (approval_update_planner "edit" (Some (strip l2))
             (get (plan st))))
    else
      (mkEnv (store e) rest
         (stdout e ++ [PrintPlanReviewHeader; PrintPlanDump (get (plan st));
                       PrintApprovePlanPrompt; PrintEditPrompt;
                       PrintNoEdits])
         (backend e) (sent e), Ok yes_planner).
Proof.
  intros Hin He. unfold approval_planner_node, bind, print, input; cbn.
  rewrite Hin; cbn. rewrite bool_decide_eq_true_2 by done. cbn.
  destruct (truthy (Some (strip l2))); cbn; unfold ret;
    by rewrite <- !app_assoc.
Qed.

(** Every normal return of the plan approval node is one of the two
    dictionaries; the edit one needs the word "edit" and a non-empty text. *)
Lemma approval_planner_inv st e e' upd :
  approval_planner_node st e = (e', Ok upd) →
  store e' = store e ∧ sent e' = sent e ∧
  (upd = yes_planner
   ∨ ∃ l1 l2 rest,
       stdin e = l1 :: l2 :: rest ∧ lower (strip l1) = "edit"
       ∧ strip l2 ≠ ""
       ∧ upd = approval_update_planner "edit" (Some (strip l2))
                 (get (plan st))).
Proof.
  intros H. destruct (stdin e) as [|l1 rest1] eqn:Hin.
  { unfold approval_planner_node, bind, print, input in H; cbn in H.
    rewrite Hin in H. discriminate. }
  destruct (decide (lower (strip l1) = "edit")) as [He|Hne].
  - destruct rest1 as [|l2 rest].
    { unfold approval_planner_node, bind, print, input in H; cbn in H.
      rewrite Hin in H; cbn in H.
      rewrite bool_decide_eq_true_2 in H by done. cbn in H. discriminate. }
    rewrite (approval_planner_edit _ _ _ _ _ Hin He) in H.
    destruct (truthy (Some (strip l2))) eqn:Ht; inversion H; subst; cbn.
    + split; [done|]. split; [done|]. right. exists l1, l2, rest.
      repeat split; try done. intros Hs. apply truthy_empty in Hs.
      congruence.
    + auto.
  - rewrite (approval_planner_not_edit _ _ _ _ Hin Hne) in H.
    inversion H; subst; cbn. auto.
Qed.

Lemma bind_print {A} p (k : W A) e :
  (print p;; k) e =
  k (mkEnv (store e) (stdin e) (stdout e ++ [p]) (backend e) (sent e)).
Proof. reflexivity. Qed.

Lemma print_steps_spec i l e :
  ∃ out, print_steps i l e =
         (mkEnv (store e) (stdin e) (stdout e ++ out) (backend e) (sent e),
          Ok tt).
Proof.
  revert i e. induction l as [|x l IH]; intros i e.
  - exists []. cbn. unfold ret. rewrite app_nil_r. by destruct e.
  - change (print_steps i (x :: l))
      with (print (PrintStepReview i (filepath x)
                     (str_take 300 (task_description x)));;
            print_steps (S i) l).
    rewrite bind_print.
    destruct (IH (S i)
                (mkEnv (store e) (stdin e)
                   (stdout e ++
                    [PrintStepReview i (filepath x)
                       (str_take 300 (task_description x))])
                   (backend e) (sent e))) as [out Hout].
    rewrite Hout; cbn. eexists. by rewrite <- app_assoc.
Qed.

Lemma approval_architect_head st tp e :
  get (task_plan st) = Some tp →
  ∃ out, ∀ k : W GraphState,
    (print PrintTaskPlanReviewHeader;;
     print_steps 1 (implementation_steps tp);; k) e =
    k (mkEnv (store e) (stdin e) (stdout e ++ out) (backend e) (sent e)).
Proof.
  intros Htp.
  destruct (print_steps_spec 1 (implementation_steps tp)
              (mkEnv (store e) (stdin e)
                 (stdout e ++ [PrintTaskPlanReviewHeader])
                 (backend e) (sent e))) as [out Hout].
  exists ([PrintTaskPlanReviewHeader] ++ out). intros k.
  rewrite bind_print. unfold bind at 1. rewrite Hout. cbn.
  by rewrite <- app_assoc.
Qed.

Lemma approval_architect_not_edit st tp e line rest :
  get (task_plan st) = Some tp →
  stdin e = line :: rest →
  lower (strip line) ≠ "edit" →
  ∃ out, approval_architect_node st e =
    (mkEnv (store e) rest (stdout e ++ out) (backend e) (sent e),
     Ok yes_architect).
Proof.
  intros Htp Hin Hne. unfold approval_architect_node. rewrite Htp.
  destruct (approval_architect_head st tp e Htp) as [out Hout].
  rewrite Hout. unfold bind, print, input; cbn. rewrite Hin; cbn.
  rewrite bool_decide_eq_false_2 by done. unfold ret.
  eexists. by rewrite <- !app_assoc.
Qed.

Lemma approval_architect_edit st tp e l1 l2 rest :
  get (task_plan st) = Some tp →
  stdin e = l1 :: l2 :: rest →
  lower (strip l1) = "edit" →
  ∃ out, approval_architect_node st e =
    (mkEnv (store e) rest (stdout e ++ out) (backend e) (sent e),
     Ok (if truthy (Some (strip l2))
         then approval_update_architect "edit" (Some (strip l2)) (Some tp)
         else yes_architect)).
Proof.
  intros Htp Hin He. unfold approval_architect_node. rewrite Htp.
  destruct (approval_architect_head st tp e Htp) as [out Hout].
  rewrite Hout. unfold bind, print, input; cbn. rewrite Hin; cbn.
  rewrite bool_decide_eq_true_2 by done. cbn.
  destruct (truthy (Some (strip l2))); cbn; unfold ret;
    eexists; by rewrite <- !app_assoc.
Qed.

Lemma approval_architect_inv st e e' upd :
  approval_architect_node st e = (e', Ok upd) →
  store e' = store e ∧ sent e' = sent e ∧
  ∃ tp, get (task_plan st) = Some tp ∧
  (upd = yes_architect
   ∨ ∃ l1 l2 rest,
       stdin e = l1 :: l2 :: rest ∧ lower (strip l1) = "edit"
       ∧ strip l2 ≠ ""
       ∧ upd = approval_update_architect "edit" (Some (strip l2))
                 (Some tp)).
Proof.
  intros H. destruct (get (task_plan st)) as [tp|] eqn:Htp.
  2:{ unfold approval_architect_node, bind, print in H; cbn in H.
      rewrite Htp in H. discriminate. }
  assert (Hstuck : ∀ l, stdin e = l →
            (l = [] ∨ ∃ l1, l = [l1] ∧ lower (strip l1) = "edit") →
            ∀ u, approval_architect_node st e ≠ (e', Ok u)).
  { intros l Hl Hcase u Hu. unfold approval_architect_node in Hu.
    rewrite Htp in Hu.
    destruct (approval_architect_head st tp e Htp) as [out Hout].
    rewrite Hout in Hu. unfold bind, print, input in Hu; cbn in Hu.
    rewrite Hl in Hu. destruct Hcase as [->|[l1 [-> He]]]; cbn in Hu.
    - discriminate.
    - rewrite bool_decide_eq_true_2 in Hu by done. cbn in Hu.
      discriminate. }
  destruct (stdin e) as [|l1 rest1] eqn:Hin.
  { exfalso. eapply Hstuck; eauto. }
  destruct (decide (lower (strip l1) = "edit")) as [He|Hne].
  - destruct rest1 as [|l2 rest].
    { exfalso. eapply Hstuck; eauto. }
    destruct (approval_architect_edit _ _ _ _ _ _ Htp Hin He) as [out Ho].
    rewrite Ho in H. inversion H; subst; cbn.
    split; [done|]. split; [done|]. exists tp. split; [done|].
    destruct (truthy (Some (strip l2))) eqn:Ht; [right|by left].
    exists l1, l2, rest. repeat split; try done.
    intros Hs. apply truthy_empty in Hs. congruence.
  - destruct (approval_architect_not_edit _ _ _ _ _ Htp Hin Hne)
      as [out Ho].
    rewrite Ho in H. inversion H; subst; cbn.
    split; [done|]. split; [done|]. exists tp. split; [done|]. by left.
Qed.

(** ** Planning and architecture nodes *)

Lemma planner_agent_inv st e e' upd :
  planner_agent st e = (e', Ok upd) →
  ∃ message,
    structured_plan (backend e) (length (sent e)) = Ok (Some message)
    ∧ upd = planner_update (get (user_prompt st)) message
    ∧ sent e' = sent e ++ [planner_request st]
    ∧ store e' = store e ∧ stdin e' = stdin e.
Proof.
  unfold planner_agent, bind, ask, lift_res. cbn.
  destruct (structured_plan (backend e) (length (sent e))) as [[m|]|];
    cbn; intros H; inversion H; subst; cbn. by exists m.
Qed.

Lemma architect_agent_inv st e e' upd :
  architect_agent st e = (e', Ok upd) →
  ∃ pl message,
    get (plan st) = Some pl
    ∧ structured_task_plan (backend e) (length (sent e)) = Ok (Some message)
    ∧ upd = architect_update message pl
    ∧ sent e' = sent e ++ [architect_request st pl]
    ∧ store e' = store e ∧ stdin e' = stdin e.
Proof.
  unfold architect_agent, bind, getitem.
  destruct (plan st) as [[pl|]|] eqn:Hpl; cbn; try discriminate.
  unfold ask, lift_res; cbn.
  destruct (structured_task_plan (backend e) (length (sent e)))
    as [[m|]|]; cbn; intros H; inversion H; subst; cbn.
  by exists pl, m.
Qed.

(** ** One super-step *)

Lemma step_inv cwd n st e e' n' st' :
  step cwd n st e = (e', Ok (n', st')) →
  ∃ upd, node_fn cwd n st e = (e', Ok upd)
         ∧ st' = merge st upd ∧ next n st' = Ok n'.
Proof.
  unfold step, bind, lift_res.
  destruct (node_fn cwd n st e) as [e1 [upd|ex]]; [|discriminate].
  destruct (next n (merge st upd)) as [m|] eqn:Hn; cbn; [|discriminate].
  intros H; inversion H; subst. by exists upd.
Qed.

(** ** The step executor *)

Lemma run_tool_ok cwd tc s : snd (run_tool cwd tc s) = Ok tt.
Proof. reflexivity. Qed.

Lemma run_tools_ok cwd tcs s : snd (run_tools cwd tcs s) = Ok tt.
Proof.
  revert s. induction tcs as [|tc tcs IH]; intros s; [done|].
  cbn [run_tools]. unfold bind.
  destruct (run_tool cwd tc s) as [s1 r] eqn:Hr.
  pose proof (run_tool_ok cwd tc s) as Hok. rewrite Hr in Hok. cbn in Hok.
  subst r. apply IH.
Qed.

Lemma cursor_bind {A} st cs (k : CoderState → W A) e :
  cursor st = Some cs →
  (let! c :=
     match get (coder_state st) with
     | Some c => ret c
     | None =>
         let! tp := getitem "task_plan" (task_plan st) in
         match tp with
         | Some tp => ret (mkCoderState tp 0 None)
         | None => raise (ValueError "task_plan: validation error")
         end
     end in k c) e = k cs e.
Proof.
  unfold cursor. unfold bind, getitem.
  destruct (get (coder_state st)) as [c|]; cbn.
  - by intros [= ->].
  - destruct (task_plan st) as [[tp|]|]; cbn; try discriminate.
    by intros [= <-].
Qed.

(** An invocation that finds no step left. *)
Lemma coder_agent_exhausted cwd st cs e :
  cursor st = Some cs →
  total_steps cs ≤ current_step_idx cs →
  coder_agent cwd st e =
    (mkEnv (store e) (stdin e) (stdout e ++ [PrintAllStepsCompleted])
           (backend e) (sent e),
     Ok (coder_update cs (Some "DONE"))).
Proof.
  intros Hc Hle. unfold coder_agent. rewrite (cursor_bind st cs _ e Hc).
  unfold total_steps in Hle.
  destruct (Z.leb_spec (Z.of_nat (length (implementation_steps
                                            (cs_task_plan cs))))
                       (current_step_idx cs)); [|lia].
  reflexivity.
Qed.

Lemma py_getitem_in_range {A} (l : list A) i :
  0 ≤ i < Z.of_nat (length l) →
  ∃ x, py_getitem l i = Some x ∧ l !! Z.to_nat i = Some x.
Proof.
  intros [H0 H1]. unfold py_getitem.
  destruct (Z.leb_spec 0 i); [|lia].
  destruct (lookup_lt_is_Some_2 l (Z.to_nat i)) as [x Hx]; [lia|].
  by exists x.
Qed.

(** An invocation that processes a step whose initial read succeeds. *)
Lemma coder_agent_processes cwd st cs e task s1 content :
  cursor st = Some cs →
  0 ≤ current_step_idx cs < total_steps cs →
  implementation_steps (cs_task_plan cs) !! Z.to_nat (current_step_idx cs)
    = Some task →
  read_file cwd (filepath task) (store e) = (s1, Ok content) →
  let inv := tool_run (backend e) (length (sent e)) in
  coder_agent cwd st e =
    (mkEnv (fst (run_tools cwd (tool_calls inv) s1)) (stdin e)
       (stdout e
        ++ [PrintStep (current_step_idx cs + 1) (total_steps cs)
              (filepath task);
            PrintTask (str_take 120 (task_description task))]
        ++ error_print inv ++ [PrintStepCompleted (elapsed inv)]
        ++ (if overrun inv then [PrintTimeoutExceeded] else []))
       (backend e)
       (sent e ++ [CoderMessages coder_system_prompt
                     (coder_user_prompt task content)]),
     Ok (coder_update (advance cs)
           (if overrun inv then Some "DONE" else None))).
Proof.
  intros Hc Hrange Htask Hread inv. unfold coder_agent.
  rewrite (cursor_bind st cs _ e Hc). unfold total_steps in *.
  destruct (Z.leb_spec (Z.of_nat (length (implementation_steps
                                            (cs_task_plan cs))))
                       (current_step_idx cs)); [lia|].
  destruct (py_getitem_in_range _ _ Hrange) as [x [Hx Hx']].
  rewrite Hx. assert (x = task) as -> by congruence.
  rewrite !bind_print. unfold bind at 1. unfold on_store at 1.
  cbn [store]. rewrite Hread. unfold bind at 1. unfold ask at 1.
  cbn [store stdin stdout backend sent]. fold inv.
  unfold bind at 1. unfold on_store at 1. cbn [store].
  pose proof (run_tools_ok cwd (tool_calls inv) s1) as Hok.
  destruct (run_tools cwd (tool_calls inv) s1) as [s2 r]. cbn in Hok.
  subst r. cbn [fst]. unfold error_print, overrun, advance.
  destruct (raised inv) as [ex|];
    destruct (Qlt_le_dec TIMEOUT_SECONDS (elapsed inv)); cbn;
    unfold bind, print, ret; cbn; rewrite <- ?app_assoc; reflexivity.
Qed.

(** An invocation whose initial read raises lets the exception through. *)
Lemma coder_agent_read_raises cwd st cs e task s1 ex :
  cursor st = Some cs →
  0 ≤ current_step_idx cs < total_steps cs →
  implementation_steps (cs_task_plan cs) !! Z.to_nat (current_step_idx cs)
    = Some task →
  read_file cwd (filepath task) (store e) = (s1, Raise ex) →
  snd (coder_agent cwd st e) = Raise ex.
Proof.
  intros Hc Hrange Htask Hread. unfold coder_agent.
  rewrite (cursor_bind st cs _ e Hc). unfold total_steps in *.
  destruct (Z.leb_spec (Z.of_nat (length (implementation_steps
                                            (cs_task_plan cs))))
                       (current_step_idx cs)); [lia|].
  destruct (py_getitem_in_range _ _ Hrange) as [x [Hx Hx']].
  rewrite Hx. assert (x = task) as -> by congruence.
  rewrite !bind_print. unfold bind at 1. unfold on_store at 1.
  cbn [store]. by rewrite Hread.
Qed.

Lemma cursor_after_update st cs s :
  cursor (merge st (coder_update cs s)) = Some cs.
Proof. reflexivity. Qed.

Lemma status_after_update st cs :
  get (status (merge st (coder_update cs None))) = get (status st).
Proof. reflexivity. Qed.

Lemma next_coder_running st :
  get (status st) ≠ Some "DONE" → next coder st = Ok coder.
Proof.
  intros H. unfold next, conditional, route_coder.
  by rewrite bool_decide_eq_false_2.
Qed.

Lemma next_coder_done st :
  get (status st) = Some "DONE" → next coder st = Ok END.
Proof.
  intros H. unfold next, conditional, route_coder.
  by rewrite bool_decide_eq_true_2.
Qed.

Lemma overrun_true inv :
  (TIMEOUT_SECONDS < elapsed inv)%Q → overrun inv = true.
Proof.
  intros H. unfold overrun.
  destruct (Qlt_le_dec TIMEOUT_SECONDS (elapsed inv)) as [|Hle]; [done|].
  exfalso. exact (Qlt_not_le _ _ H Hle).
Qed.

Lemma overrun_false inv :
  (elapsed inv <= TIMEOUT_SECONDS)%Q → overrun inv = false.
Proof.
  intros H. unfold overrun.
  destruct (Qlt_le_dec TIMEOUT_SECONDS (elapsed inv)) as [Hlt|]; [|done].
  exfalso. exact (Qlt_not_le _ _ Hlt H).
Qed.

(** A super-step of the coder that processes a step under the ceiling. *)
Lemma step_coder_processes cwd st cs e :
  cursor st = Some cs →
  0 ≤ current_step_idx cs < total_steps cs →
  get (status st) ≠ Some "DONE" →
  (elapsed (tool_run (backend e) (length (sent e))) <= TIMEOUT_SECONDS)%Q →
  (∀ ex, snd (step cwd coder st e) ≠ Raise ex) →
  ∃ e' st',
    step cwd coder st e = (e', Ok (coder, st'))
    ∧ cursor st' = Some (advance cs)
    ∧ get (status st') = get (status st)
    ∧ backend e' = backend e
    ∧ length (sent e') = S (length (sent e)).
Proof.
  intros Hc Hrange Hst Hel Hok.
  destruct (lookup_lt_is_Some_2 (implementation_steps (cs_task_plan cs))
              (Z.to_nat (current_step_idx cs))) as [task Htask].
  { unfold total_steps in Hrange. lia. }
  destruct (read_file cwd (filepath task) (store e)) as [s1 [content|ex]]
    eqn:Hread.
  - pose proof (coder_agent_processes cwd st cs e task s1 content
                  Hc Hrange Htask Hread) as Hrun. cbn zeta in Hrun.
    rewrite (overrun_false _ Hel) in Hrun.
    unfold step, bind. cbn [node_fn]. rewrite Hrun.
    unfold lift_res. rewrite next_coder_running.
    2:{ by rewrite status_after_update. }
    eexists _, _. split; [reflexivity|]. cbn.
    rewrite length_app. cbn. repeat split; lia.
  - exfalso. apply (Hok ex). unfold step, bind. cbn [node_fn].
    pose proof (coder_agent_read_raises cwd st cs e task s1 ex
                  Hc Hrange Htask Hread) as Hrun.
    destruct (coder_agent cwd st e) as [e1 r]. cbn in Hrun. by subst r.
Qed.

Lemma steps_unfold cwd k n st e :
  n ≠ END →
  steps cwd (S k) n st e =
  match step cwd n st e with
  | (e1, Ok c) => steps cwd k (fst c) (snd c) e1
  | (e1, Raise ex) => (e1, Raise ex)
  end.
Proof. by destruct n. Qed.

Lemma steps_one_more cwd k n st e e' n' st' :
  steps cwd k n st e = (e', Ok (n', st')) →
  steps cwd (S k) n st e = steps cwd 1 n' st' e'.
Proof.
  revert n st e. induction k as [|k IH]; intros n st e H.
  - cbn in H. unfold ret in H. by inversion H.
  - destruct (decide (n = END)) as [->|Hn].
    + cbn in H. unfold ret in H. by inversion H.
    + rewrite steps_unfold in H by done.
      rewrite (steps_unfold cwd (S k)) by done.
      destruct (step cwd n st e) as [e1 [c|ex]]; [|discriminate].
      by apply IH.
Qed.

(** [k] steps remain and none overruns: [k] invocations process them and
    leave the run in the coding stage. *)
Lemma coder_loop cwd k : ∀ st cs e,
  cursor st = Some cs →
  0 ≤ current_step_idx cs →
  current_step_idx cs + Z.of_nat k ≤ total_steps cs →
  get (status st) ≠ Some "DONE" →
  (∀ i, (i < k)%nat →
     (elapsed (tool_run (backend e) (length (sent e) + i))
      <= TIMEOUT_SECONDS)%Q) →
  (∀ ex, snd (steps cwd k coder st e) ≠ Raise ex) →
  ∃ e' st' cs',
    steps cwd k coder st e = (e', Ok (coder, st'))
    ∧ cursor st' = Some cs'
    ∧ cs_task_plan cs' = cs_task_plan cs
    ∧ current_step_idx cs' = current_step_idx cs + Z.of_nat k
    ∧ get (status st') = get (status st).
Proof.
  induction k as [|k IH]; intros st cs e Hc H0 Hk Hst Hel Hok.
  - exists e, st, cs. cbn. unfold ret. repeat split; try done. lia.
  - rewrite steps_unfold in Hok by done. rewrite steps_unfold by done.
    destruct (step_coder_processes cwd st cs e) as
      (e1 & st1 & Hstep & Hc1 & Hst1 & Hb1 & Hs1); try done.
    { lia. }
    { specialize (Hel O). rewrite Nat.add_0_r in Hel. apply Hel. lia. }
    { intros ex Hex. apply (Hok ex).
      destruct (step cwd coder st e) as [e2 r]. cbn in Hex. by subst r. }
    rewrite Hstep in Hok. rewrite Hstep. cbn [fst snd] in *.
    destruct (IH st1 (advance cs) e1) as
      (e' & st' & cs' & Hrun & Hc' & Htp & Hidx & Hst'); try done.
    { cbn. lia. }
    { cbn. unfold total_steps in *. cbn. lia. }
    { by rewrite Hst1. }
    { intros i Hi. rewrite Hb1, Hs1.
      replace (S (length (sent e)) + i)%nat
        with (length (sent e) + S i)%nat by lia.
      apply Hel. lia. }
    exists e', st', cs'. repeat split; try done.
    + rewrite Hidx. cbn. lia.
    + by rewrite Hst', Hst1.
Qed.

(** C5, as stated, fails: with one step and no overrun, one invocation of
    the step executor leaves the cursor at 1 but the run is still in the
    coding stage, not marked done. *)
Lemma done_not_reached_after_N_invocations :
  match snd (steps home 1 coder (coding_state one_step)
               (sample_env quick_call [])) with
  | Ok (n, st) =>
      n = coder ∧ get (status st) = None
      ∧ (current_step_idx <$> get (coder_state st)) = Some 1
  | Raise _ => False
  end.
Proof. vm_compute. done. Qed.

(** C5, amended: for a task plan with N steps, if no invocation overruns
    and none raises, the first N invocations of the step executor process
    one step each and leave the run in the coding stage with the cursor at
    N; the invocation after them finds no step left and marks the run done,
    the cursor still at N.  Done is reached after exactly N + 1
    invocations. *)
Theorem done_after_N_plus_one_invocations cwd st tp e :
  get (coder_state st) = None →
  get (task_plan st) = Some tp →
  get (status st) ≠ Some "DONE" →
  let N := length (implementation_steps tp) in
  (∀ i, (i < N)%nat →
     (elapsed (tool_run (backend e) (length (sent e) + i))
      <= TIMEOUT_SECONDS)%Q) →
  (∀ ex, snd (steps cwd N coder st e) ≠ Raise ex) →
  (∃ eN stN csN,
     steps cwd N coder st e = (eN, Ok (coder, stN))
     ∧ get (status stN) ≠ Some "DONE"
     ∧ cursor stN = Some csN
     ∧ current_step_idx csN = Z.of_nat N)
  ∧ (∃ eD stD csD,
       steps cwd (S N) coder st e = (eD, Ok (END, stD))
       ∧ get (status stD) = Some "DONE"
       ∧ get (coder_state stD) = Some csD
       ∧ current_step_idx csD = Z.of_nat N).
Proof.
  intros Hcs Htp Hst N Hel Hok.
  assert (Hc : cursor st = Some (mkCoderState tp 0 None)).
  { unfold cursor. by rewrite Hcs, Htp. }
  destruct (coder_loop cwd N st _ e Hc) as
    (eN & stN & csN & Hrun & HcN & HtpN & Hidx & HstN); try done.
  cbn [cs_task_plan current_step_idx] in Hidx, HtpN. split.
  - exists eN, stN, csN. repeat split; try done. by rewrite HstN.
  - rewrite (steps_one_more _ _ _ _ _ _ _ _ Hrun).
    rewrite steps_unfold by done. unfold step, bind. cbn [node_fn].
    rewrite (coder_agent_exhausted cwd stN csN eN HcN).
    2:{ unfold total_steps. rewrite HtpN, Hidx. subst N. lia. }
    unfold lift_res. rewrite next_coder_done by reflexivity.
    cbn. unfold ret. eexists _, _, csN. repeat split. done.
Qed.

Lemma done_after_N_plus_one_invocations_witness :
  (∃ eN stN csN,
     steps home 2 coder (coding_state two_steps)
       (sample_env quick_call []) = (eN, Ok (coder, stN))
     ∧ get (status stN) ≠ Some "DONE"
     ∧ cursor stN = Some csN
     ∧ current_step_idx csN = 2)
  ∧ (∃ eD stD csD,
       steps home 3 coder (coding_state two_steps)
         (sample_env quick_call []) = (eD, Ok (END, stD))
       ∧ get (status stD) = Some "DONE"
       ∧ get (coder_state stD) = Some csD
       ∧ current_step_idx csD = 2).
Proof.
  apply (done_after_N_plus_one_invocations home (coding_state two_steps)
           two_steps (sample_env quick_call [])).
  - reflexivity.
  - reflexivity.
  - discriminate.
  - intros i _. vm_compute. discriminate.
  - intros ex. vm_compute. discriminate.
Defined.

(** C6, as stated, fails: the inference call of the first of two steps
    raises after 121 seconds; the executor returns normally and advances the
    cursor to 1, but marks the run done, and the workflow ends with the
    second step unprocessed. *)
Lemma failure_past_ceiling_ends_run :
  raised (tool_run (backend (sample_env slow_failure [])) 0)
    = Some (InferenceError "overloaded")
  ∧ match snd (steps home 1 coder (coding_state two_steps)
                 (sample_env slow_failure [])) with
    | Ok (n, st) =>
        n = END ∧ get (status st) = Some "DONE"
        ∧ (current_step_idx <$> get (coder_state st)) = Some 1
        ∧ (total_steps <$> get (coder_state st)) = Some 2
    | Raise _ => False
    end.
Proof. vm_compute. done. Qed.

(** C6, amended: if the inference call of a step raises, the step
    executor prints the failure, returns normally and advances the cursor
    by one; when the elapsed time of the call does not exceed the ceiling
    the workflow stays in the coding stage. *)
Theorem inference_failure_is_logged_and_skipped
    cwd st cs e task s1 content ex :
  cursor st = Some cs →
  0 ≤ current_step_idx cs < total_steps cs →
  implementation_steps (cs_task_plan cs) !! Z.to_nat (current_step_idx cs)
    = Some task →
  read_file cwd (filepath task) (store e) = (s1, Ok content) →
  raised (tool_run (backend e) (length (sent e))) = Some ex →
  ∃ e' upd,
    coder_agent cwd st e = (e', Ok upd)
    ∧ PrintStepError ex ∈ stdout e'
    ∧ cursor (merge st upd) = Some (advance cs)
    ∧ ((elapsed (tool_run (backend e) (length (sent e)))
        <= TIMEOUT_SECONDS)%Q →
       status upd = None
       ∧ (get (status st) ≠ Some "DONE" →
          next coder (merge st upd) = Ok coder)).
Proof.
  intros Hc Hrange Htask Hread Hraised.
  pose proof (coder_agent_processes cwd st cs e task s1 content
                Hc Hrange Htask Hread) as Hrun. cbn zeta in Hrun.
  eexists _, _. split; [exact Hrun|]. split; [|split].
  - cbn [stdout]. unfold error_print. rewrite Hraised.
    rewrite !elem_of_app. right. right. left.
    by apply list_elem_of_singleton.
  - apply cursor_after_update.
  - intros Hel. rewrite (overrun_false _ Hel). split; [done|].
    intros Hst. apply next_coder_running. by rewrite status_after_update.
Qed.

Lemma inference_failure_is_logged_and_skipped_witness :
  ∃ e' upd,
    coder_agent home (coding_state two_steps) (sample_env quick_failure [])
      = (e', Ok upd)
    ∧ PrintStepError (InferenceError "overloaded") ∈ stdout e'
    ∧ cursor (merge (coding_state two_steps) upd)
      = Some (advance (mkCoderState two_steps 0 None))
    ∧ ((elapsed (tool_run (backend (sample_env quick_failure []))
                   (length (sent (sample_env quick_failure []))))
        <= TIMEOUT_SECONDS)%Q →
       status upd = None
       ∧ (get (status (coding_state two_steps)) ≠ Some "DONE" →
          next coder (merge (coding_state two_steps) upd) = Ok coder)).
Proof.
  eapply (inference_failure_is_logged_and_skipped home
            (coding_state two_steps) (mkCoderState two_steps 0 None)
            (sample_env quick_failure [])
            (mkTask "notes.py" "write the storage module")).
  - reflexivity.
  - vm_compute. split; [discriminate | reflexivity].
  - reflexivity.
  - vm_compute. reflexivity.
  - reflexivity.
Defined.

(** C7: in an invocation of the step executor that makes its backend call,
    if the elapsed time of the call exceeds the ceiling the run is marked
    done and the workflow ends, whether or not steps remain; otherwise the
    workflow loops back into the coding stage (in particular when steps
    remain). *)
Theorem overrun_guard cwd st cs e task s1 content :
  cursor st = Some cs →
  0 ≤ current_step_idx cs < total_steps cs →
  implementation_steps (cs_task_plan cs) !! Z.to_nat (current_step_idx cs)
    = Some task →
  read_file cwd (filepath task) (store e) = (s1, Ok content) →
  get (status st) ≠ Some "DONE" →
  ∃ e' upd,
    coder_agent cwd st e = (e', Ok upd)
    ∧ cursor (merge st upd) = Some (advance cs)
    ∧ ((TIMEOUT_SECONDS
        < elapsed (tool_run (backend e) (length (sent e))))%Q →
       get (status (merge st upd)) = Some "DONE"
       ∧ next coder (merge st upd) = Ok END)
    ∧ ((elapsed (tool_run (backend e) (length (sent e)))
        <= TIMEOUT_SECONDS)%Q →
       next coder (merge st upd) = Ok coder).
Proof.
  intros Hc Hrange Htask Hread Hst.
  pose proof (coder_agent_processes cwd st cs e task s1 content
                Hc Hrange Htask Hread) as Hrun. cbn zeta in Hrun.
  eexists _, _. split; [exact Hrun|]. split; [|split].
  - apply cursor_after_update.
  - intros Hel. rewrite (overrun_true _ Hel). split; [done|].
    by apply next_coder_done.
  - intros Hel. rewrite (overrun_false _ Hel).
    apply next_coder_running. by rewrite status_after_update.
Qed.

Lemma overrun_guard_witness :
  ∃ e' upd,
    coder_agent home (coding_state two_steps) (sample_env slow_failure [])
      = (e', Ok upd)
    ∧ cursor (merge (coding_state two_steps) upd)
      = Some (advance (mkCoderState two_steps 0 None))
    ∧ ((TIMEOUT_SECONDS
        < elapsed (tool_run (backend (sample_env slow_failure []))
                     (length (sent (sample_env slow_failure [])))))%Q →
       get (status (merge (coding_state two_steps) upd)) = Some "DONE"
       ∧ next coder (merge (coding_state two_steps) upd) = Ok END)
    ∧ ((elapsed (tool_run (backend (sample_env slow_failure []))
                   (length (sent (sample_env slow_failure []))))
        <= TIMEOUT_SECONDS)%Q →
       next coder (merge (coding_state two_steps) upd) = Ok coder).
Proof.
  eapply (overrun_guard home (coding_state two_steps)
            (mkCoderState two_steps 0 None) (sample_env slow_failure [])
            (mkTask "notes.py" "write the storage module")).
  - reflexivity.
  - vm_compute. split; [discriminate | reflexivity].
  - reflexivity.
  - vm_compute. reflexivity.
  - discriminate.
Defined.

Lemma cursor_none_raises cwd st e :
  cursor st = None → ∃ e' ex, coder_agent cwd st e = (e', Raise ex).
Proof.
  unfold cursor, coder_agent, bind, getitem, get.
  destruct (coder_state st) as [[c|]|]; try discriminate;
    destruct (task_plan st) as [[tp|]|]; try discriminate; intros _;
    cbn; unfold raise; eauto.
Qed.

Lemma coder_agent_inv cwd st e e' upd :
  coder_agent cwd st e = (e', Ok upd) →
  ∃ cs s, upd = coder_update cs s.
Proof.
  intros H. destruct (cursor st) as [cs|] eqn:Hc.
  2:{ destruct (cursor_none_raises cwd st e Hc) as (e1 & ex & Hr).
      congruence. }
  unfold coder_agent in H. rewrite (cursor_bind st cs _ e Hc) in H.
  destruct (Z.of_nat (length (implementation_steps (cs_task_plan cs)))
            <=? current_step_idx cs).
  { inversion H. eauto. }
  destruct (py_getitem _ _) as [task|]; [|discriminate].
  rewrite !bind_print in H. unfold bind at 1 in H.
  destruct (on_store _ _) as [e1 [content|ex]]; [|discriminate].
  unfold bind at 1 in H. unfold ask at 1 in H.
  unfold bind at 1 in H.
  destruct (on_store _ _) as [e2 [[]|ex]]; [|discriminate].
  destruct (raised _); destruct (Qlt_le_dec _ _);
    unfold bind, print, ret in H; cbn in H; inversion H; eauto.
Qed.

(** ** The revision invariant *)

Lemma clear_merge_keep st upd :
  edit_request upd = None → previous_plan upd = None →
  previous_task_plan upd = None →
  clear st → clear (merge st upd).
Proof.
  unfold clear, merge. cbn. intros -> -> ->. by cbn.
Qed.

Lemma revision_invariant_step cwd n st e e' n' st' :
  revision_invariant n st →
  step cwd n st e = (e', Ok (n', st')) →
  revision_invariant n' st'.
Proof.
  intros Hinv Hstep.
  destruct (step_inv _ _ _ _ _ _ _ Hstep) as (upd & Hnode & -> & Hnext).
  destruct n; cbn [node_fn] in Hnode; cbn [revision_invariant] in Hinv.
  - (* planner *)
    destruct (planner_agent_inv _ _ _ _ Hnode) as (m & _ & -> & _).
    cbn in Hnext. inversion Hnext; subst. cbn.
    split; [|by eexists]. unfold clear. cbn.
    destruct Hinv as [(_ & _ & H3)|(? & ? & _ & _ & _ & _ & H3)]; done.
  - (* approval_planner *)
    destruct Hinv as [Hclear [p Hp]].
    destruct (approval_planner_inv _ _ _ _ Hnode)
      as (_ & _ & [->|(l1 & l2 & rest & _ & _ & Hne & ->)]).
    + rewrite next_planner_yes in Hnext. inversion Hnext; subst.
      left. by apply clear_merge_keep.
    + cbn in Hnext. inversion Hnext; subst. right.
      exists (strip l2), p. destruct Hclear as (_ & _ & H3).
      repeat split; done.
  - (* architect *)
    destruct (architect_agent_inv _ _ _ _ Hnode)
      as (pl & m & _ & _ & -> & _).
    cbn in Hnext. inversion Hnext; subst. unfold revision_invariant, clear.
    cbn.
    destruct Hinv as [(_ & H2 & _)|(? & ? & _ & _ & _ & _ & H2)]; done.
  - (* approval_architect *)
    destruct (approval_architect_inv _ _ _ _ Hnode)
      as (_ & _ & tp & Htp & [->|(l1 & l2 & rest & _ & _ & Hne & ->)]).
    + rewrite next_architect_yes in Hnext. inversion Hnext; subst.
      by apply clear_merge_keep.
    + cbn in Hnext. inversion Hnext; subst. right.
      exists (strip l2), tp. destruct Hinv as (_ & H2 & _).
      repeat split; done.
  - (* coder *)
    destruct (coder_agent_inv _ _ _ _ _ Hnode) as (cs & s0 & ->).
    assert (clear (merge st (coder_update cs s0)))
      by (by apply clear_merge_keep).
    unfold next, conditional in Hnext.
    destruct (list_find _ _) as [[i [nm m]]|] eqn:Hf; [|discriminate].
    inversion Hnext; subst.
    apply list_find_Some in Hf as (Hl & _ & _).
    destruct i as [|[|[|]]]; cbn in Hl; inversion Hl; subst; done.
  - (* END *)
    unfold ret in Hnode. inversion Hnode; subst. cbn in Hnext.
    inversion Hnext; subst. by apply clear_merge_keep.
Qed.

Lemma reachable_invariant cwd n st :
  reachable cwd n st → revision_invariant n st.
Proof.
  induction 1 as [u|n st e e' n' st' _ IH Hstep].
  - left. by repeat split.
  - by eapply revision_invariant_step.
Qed.

Lemma review_state_reachable : reachable home approval_planner review_state.
Proof.
  eapply (reach_step home planner (initial_state "a note taking app")
            (sample_env quick_call [])).
  - apply reach_init.
  - vm_compute. reflexivity.
Qed.

Lemma pending_state_reachable : reachable home planner pending_state.
Proof.
  eapply (reach_step home approval_planner review_state
            (sample_env quick_call ["edit"; "add dark mode"])).
  - apply review_state_reachable.
  - vm_compute. reflexivity.
Qed.

(** C9: in every configuration a run can reach, a pending edit request
    comes with the saved prior record, which is the current plan (when the
    planner is about to revise) or the current task plan (when the
    architect is), and the request the stage sends is the revision of that
    record by that edit; the dictionary the revising stage returns clears
    the edit request and the saved record together, so that no revision is
    pending afterwards. *)
Theorem revision_pair_kept_then_cleared cwd n st :
  reachable cwd n st →
  (∀ ed, get (edit_request st) = Some ed →
     (n = planner
      ∧ ∃ p, get (previous_plan st) = Some p ∧ get (plan st) = Some p
             ∧ planner_request st = PlanRevisionPrompt p ed)
     ∨ (n = architect
        ∧ ∃ tp, get (previous_task_plan st) = Some tp
                ∧ get (task_plan st) = Some tp
                ∧ ∀ pl, architect_request st pl
                        = TaskPlanRevisionPrompt tp ed pl))
  ∧ (∀ e e' upd,
       n = planner ∨ n = architect →
       node_fn cwd n st e = (e', Ok upd) →
       edit_request upd = Some None
       ∧ (n = planner → previous_plan upd = Some None)
       ∧ (n = architect → previous_task_plan upd = Some None)
       ∧ clear (merge st upd)).
Proof.
  intros Hreach. pose proof (reachable_invariant _ _ _ Hreach) as Hinv.
  split.
  - intros ed Hed.
    assert (Hnc : ¬ clear st) by (intros (H1 & _); congruence).
    destruct n; cbn in Hinv; try tauto.
    + destruct Hinv as [?|(e0 & p & Hne & He & Hp & Hpl & _)]; [tauto|].
      left. split; [done|]. exists p. repeat split; try done.
      unfold planner_request. rewrite He, Hp.
      assert (e0 = ed) as -> by congruence.
      destruct (truthy (Some ed)) eqn:Ht; [done|].
      by apply truthy_empty in Ht.
    + destruct Hinv as [?|(e0 & tp & Hne & He & Hp & Htp & _)]; [tauto|].
      right. split; [done|]. exists tp. repeat split; try done.
      intros pl. unfold architect_request. rewrite He, Hp.
      assert (e0 = ed) as -> by congruence.
      destruct (truthy (Some ed)) eqn:Ht; [done|].
      by apply truthy_empty in Ht.
  - intros e e' upd Hn Hnode.
    destruct Hn as [-> | ->]; cbn [node_fn] in Hnode; cbn in Hinv.
    + destruct (planner_agent_inv _ _ _ _ Hnode) as (m & _ & -> & _).
      repeat split; try done; cbn.
      destruct Hinv as [(_ & _ & H3)|(? & ? & _ & _ & _ & _ & H3)]; done.
    + destruct (architect_agent_inv _ _ _ _ Hnode)
        as (pl & m & _ & _ & -> & _).
      repeat split; try done; cbn.
      destruct Hinv as [(_ & H2 & _)|(? & ? & _ & _ & _ & _ & H2)]; done.
Qed.

Lemma revision_pair_kept_then_cleared_witness :
  (∀ ed, get (edit_request pending_state) = Some ed →
     (planner = planner
      ∧ ∃ p, get (previous_plan pending_state) = Some p
             ∧ get (plan pending_state) = Some p
             ∧ planner_request pending_state = PlanRevisionPrompt p ed)
     ∨ (planner = architect
        ∧ ∃ tp, get (previous_task_plan pending_state) = Some tp
                ∧ get (task_plan pending_state) = Some tp
                ∧ ∀ pl, architect_request pending_state pl
                        = TaskPlanRevisionPrompt tp ed pl))
  ∧ (∀ e e' upd,
       planner = planner ∨ planner = architect →
       node_fn home planner pending_state e = (e', Ok upd) →
       edit_request upd = Some None
       ∧ (planner = planner → previous_plan upd = Some None)
       ∧ (planner = architect → previous_task_plan upd = Some None)
       ∧ clear (merge pending_state upd)).
Proof.
  apply (revision_pair_kept_then_cleared home planner pending_state).
  apply pending_state_reachable.
Defined.

(** C8: at both approval checkpoints, the word "edit" followed by an empty
    edit text makes the node return the very dictionary it returns on
    explicit approval; that dictionary sets no edit request and no prior
    record, the node sends nothing to the backend, and the workflow moves
    forward (to the architect after the plan review, to the coder after the
    task plan review), where no revision is requested when none was
    pending. *)
Theorem empty_edit_is_approval st e l1 l2 rest :
  stdin e = l1 :: l2 :: rest →
  lower (strip l1) = "edit" →
  strip l2 = "" →
  (∃ e', approval_planner_node st e = (e', Ok yes_planner)
         ∧ sent e' = sent e ∧ store e' = store e)
  ∧ (∀ tp, get (task_plan st) = Some tp →
       ∃ e', approval_architect_node st e = (e', Ok yes_architect)
             ∧ sent e' = sent e ∧ store e' = store e)
  ∧ (∀ e0 rest0, stdin e0 = "yes" :: rest0 →
       snd (approval_planner_node st e0) = Ok yes_planner
       ∧ (∀ tp, get (task_plan st) = Some tp →
            snd (approval_architect_node st e0) = Ok yes_architect))
  ∧ (edit_request yes_planner = None ∧ previous_plan yes_planner = None
     ∧ previous_task_plan yes_planner = None)
  ∧ (edit_request yes_architect = None ∧ previous_plan yes_architect = None
     ∧ previous_task_plan yes_architect = None)
  ∧ next approval_planner (merge st yes_planner) = Ok architect
  ∧ next approval_architect (merge st yes_architect) = Ok coder
  ∧ (clear st →
     ∀ pl, architect_request (merge st yes_planner) pl = ArchitectPrompt pl).
Proof.
  intros Hin He Hempty.
  assert (Ht : truthy (Some (strip l2)) = false) by by apply truthy_empty.
  split.
  { rewrite (approval_planner_edit _ _ _ _ _ Hin He), Ht. by eexists. }
  split.
  { intros tp Htp.
    destruct (approval_architect_edit _ _ _ _ _ _ Htp Hin He) as [out Ho].
    rewrite Ho, Ht. by eexists. }
  split.
  { intros e0 rest0 Hin0. split.
    - by rewrite (approval_planner_not_edit _ _ _ _ Hin0).
    - intros tp Htp.
      destruct (approval_architect_not_edit st tp e0 "yes" rest0)
        as [out Ho]; try done.
      by rewrite Ho. }
  do 4 (split; [by repeat split|]).
  intros (H1 & _ & H3) pl. unfold architect_request. cbn.
  by rewrite H1.
Qed.

Lemma empty_edit_is_approval_witness :
  (∃ e', approval_planner_node review_state
           (sample_env quick_call [" Edit"; "   "; "yes"])
         = (e', Ok yes_planner)
         ∧ sent e' = sent (sample_env quick_call [" Edit"; "   "; "yes"])
         ∧ store e' = store (sample_env quick_call [" Edit"; "   "; "yes"]))
  ∧ (∀ tp, get (task_plan review_state) = Some tp →
       ∃ e', approval_architect_node review_state
               (sample_env quick_call [" Edit"; "   "; "yes"])
             = (e', Ok yes_architect)
             ∧ sent e'
               = sent (sample_env quick_call [" Edit"; "   "; "yes"])
             ∧ store e'
               = store (sample_env quick_call [" Edit"; "   "; "yes"]))
  ∧ (∀ e0 rest0, stdin e0 = "yes" :: rest0 →
       snd (approval_planner_node review_state e0) = Ok yes_planner
       ∧ (∀ tp, get (task_plan review_state) = Some tp →
            snd (approval_architect_node review_state e0)
            = Ok yes_architect))
  ∧ (edit_request yes_planner = None ∧ previous_plan yes_planner = None
     ∧ previous_task_plan yes_planner = None)
  ∧ (edit_request yes_architect = None ∧ previous_plan yes_architect = None
     ∧ previous_task_plan yes_architect = None)
  ∧ next approval_planner (merge review_state yes_planner) = Ok architect
  ∧ next approval_architect (merge review_state yes_architect) = Ok coder
  ∧ (clear review_state →
     ∀ pl, architect_request (merge review_state yes_planner) pl
           = ArchitectPrompt pl).
Proof.
  apply (empty_edit_is_approval review_state
           (sample_env quick_call [" Edit"; "   "; "yes"])
           " Edit" "   " ["yes"]).
  - reflexivity.
  - vm_compute. reflexivity.
  - vm_compute. reflexivity.
Defined.

(** C10: at both approval checkpoints, an input line whose stripped,
    lower-cased form is not "edit" makes the node return the approval
    dictionary and the workflow move forward; and whenever the workflow
    goes back to the revising stage, the stripped, lower-cased input line
    was "edit". *)
Theorem only_edit_opens_revision st e line rest :
  stdin e = line :: rest →
  (lower (strip line) ≠ "edit" →
   snd (approval_planner_node st e) = Ok yes_planner
   ∧ next approval_planner (merge st yes_planner) = Ok architect
   ∧ (∀ tp, get (task_plan st) = Some tp →
        snd (approval_architect_node st e) = Ok yes_architect
        ∧ next approval_architect (merge st yes_architect) = Ok coder))
  ∧ (∀ e' upd,
       approval_planner_node st e = (e', Ok upd) →
       next approval_planner (merge st upd) = Ok planner →
       lower (strip line) = "edit")
  ∧ (∀ e' upd,
       approval_architect_node st e = (e', Ok upd) →
       next approval_architect (merge st upd) = Ok architect →
       lower (strip line) = "edit").
Proof.
  intros Hin. split; [|split].
  - intros Hne. split; [|split; [done|]].
    + by rewrite (approval_planner_not_edit _ _ _ _ Hin).
    + intros tp Htp.
      destruct (approval_architect_not_edit st tp e line rest) as [out Ho];
        try done.
      by rewrite Ho.
  - intros e' upd Hnode Hnext.
    destruct (approval_planner_inv _ _ _ _ Hnode)
      as (_ & _ & [->|(l1 & l2 & r & Hin' & He & _)]).
    + by rewrite next_planner_yes in Hnext.
    + congruence.
  - intros e' upd Hnode Hnext.
    destruct (approval_architect_inv _ _ _ _ Hnode)
      as (_ & _ & tp & _ & [->|(l1 & l2 & r & Hin' & He & _)]).
    + by rewrite next_architect_yes in Hnext.
    + congruence.
Qed.

Lemma only_edit_opens_revision_witness :
  (lower (strip "no") ≠ "edit" →
   snd (approval_planner_node (coding_state two_steps)
          (sample_env quick_call ["no"])) = Ok yes_planner
   ∧ next approval_planner (merge (coding_state two_steps) yes_planner)
     = Ok architect
   ∧ (∀ tp, get (task_plan (coding_state two_steps)) = Some tp →
        snd (approval_architect_node (coding_state two_steps)
               (sample_env quick_call ["no"])) = Ok yes_architect
        ∧ next approval_architect
            (merge (coding_state two_steps) yes_architect) = Ok coder))
  ∧ (∀ e' upd,
       approval_planner_node (coding_state two_steps)
         (sample_env quick_call ["no"]) = (e', Ok upd) →
       next approval_planner (merge (coding_state two_steps) upd)
       = Ok planner →
       lower (strip "no") = "edit")
  ∧ (∀ e' upd,
       approval_architect_node (coding_state two_steps)
         (sample_env quick_call ["no"]) = (e', Ok upd) →
       next approval_architect (merge (coding_state two_steps) upd)
       = Ok architect →
       lower (strip "no") = "edit").
Proof.
  apply (only_edit_opens_revision (coding_state two_steps)
           (sample_env quick_call ["no"]) "no" []).
  reflexivity.
Defined.

(** ** The sandbox test *)

Lemma elem_of_parents_rev (q : path) rp :
  q ∈ parents_rev rp ↔ ∃ k, k ≠ [] ∧ rp = k ++ rev q.
Proof.
  induction rp as [|c rp IH]; cbn.
  - split; [by intros ?%elem_of_nil|]. intros (k & Hk & Heq).
    symmetry in Heq. apply app_eq_nil in Heq as [-> _]. done.
  - rewrite elem_of_cons, IH. split.
    + intros [->|(k & Hk & ->)].
      * exists [c]. split; [done|]. by rewrite rev_involutive.
      * exists (c :: k). by split.
    + intros (k & Hk & Heq). destruct k as [|c' k]; [done|].
      inversion Heq; subst. destruct k as [|c'' k].
      * left. cbn. by rewrite rev_involutive.
      * right. exists (c'' :: k). by split.
Qed.

(** [p.parents] holds exactly the strict prefixes of [p]. *)
Lemma elem_of_parents (q p : path) :
  q ∈ parents p ↔ q `prefix_of` p ∧ q ≠ p.
Proof.
  unfold parents. rewrite elem_of_parents_rev. split.
  - intros (k & Hk & Heq).
    assert (p = q ++ rev k) as ->.
    { rewrite <- (rev_involutive p), Heq, rev_app_distr.
      by rewrite rev_involutive. }
    split; [by eexists|]. intros Hq.
    assert (rev k = []) as Hr.
    { apply (app_inv_head q). by rewrite app_nil_r. }
    apply Hk. by rewrite <- (rev_involutive k), Hr.
  - intros [[k ->] Hne]. exists (rev k). split.
    + intros Hr. apply Hne.
      rewrite <- (rev_involutive k), Hr. by rewrite app_nil_r.
    + by rewrite rev_app_distr.
Qed.

Lemma parent_prefix (p : path) : parent p `prefix_of` p.
Proof.
  unfold parent. destruct (decide (p = [])) as [->|Hne]; [done|].
  exists [List.last p ""]. by apply app_removelast_last.
Qed.

(** The three-part test of [safe_path_for_project] rejects exactly the
    paths that the resolved root is not a prefix of. *)
Lemma escape_test (r p : path) :
  bool_decide (r ∉ parents p) && bool_decide (r ≠ parent p)
  && bool_decide (r ≠ p) = true
  ↔ ¬ r `prefix_of` p.
Proof.
  rewrite !andb_true_iff, !bool_decide_eq_true. split.
  - intros [[H1 H2] H3] Hpre. apply H1, elem_of_parents. by split.
  - intros Hn. repeat split.
    + intros [? _]%elem_of_parents. done.
    + intros ->. apply Hn, parent_prefix.
    + intros ->. by apply Hn.
Qed.

Lemma safe_path_spec cwd path_ s p r :
  resolve (files s) (joinpath (PROJECT_ROOT cwd) path_) = Ok p →
  resolve (files s) (PROJECT_ROOT cwd) = Ok r →
  safe_path_for_project cwd path_ s =
    (s, if decide (r `prefix_of` p) then Ok p
        else Raise (ValueError "Attempt to write outside project root")).
Proof.
  intros Hp Hr. unfold safe_path_for_project, bind, get_files, lift_res.
  rewrite Hp, Hr.
  destruct (bool_decide (r ∉ parents p) && bool_decide (r ≠ parent p)
            && bool_decide (r ≠ p)) eqn:Ht.
  - apply escape_test in Ht. by rewrite decide_False.
  - rewrite decide_True; [done|].
    destruct (decide (r `prefix_of` p)) as [|Hn]; [done|].
    apply escape_test in Hn. congruence.
Qed.

(** [safe_path_for_project] never touches the store. *)
Lemma safe_path_pure cwd path_ s : fst (safe_path_for_project cwd path_ s) = s.
Proof.
  unfold safe_path_for_project, bind, get_files, lift_res.
  destruct (resolve _ _); [|done]. destruct (resolve _ _); [|done].
  by destruct (_ && _).
Qed.

(** ** Path resolution *)

(** The recursion equation of [joinrealpath]. *)
Lemma joinrealpath_nil fuel fs seen acc :
  joinrealpath fuel fs seen acc [] = Some acc.
Proof. by destruct fuel. Qed.

Lemma joinrealpath_cons fuel fs seen acc name rest :
  joinrealpath fuel fs seen acc (name :: rest) =
  if decide (name = "" ∨ name = ".") then
    joinrealpath fuel fs seen acc rest
  else if decide (name = "..") then
    joinrealpath fuel fs seen (removelast acc) rest
  else
    match lstat fs (acc ++ [name]) with
    | Some (Symlink target) =>
        if decide (acc ++ [name] ∈ seen) then None
        else match fuel with
             | O => None
             | S fuel' =>
                 match joinrealpath fuel' fs ((acc ++ [name]) :: seen)
                         (if is_absolute target then [] else acc)
                         (split_slash target) with
                 | Some acc' => joinrealpath fuel fs seen acc' rest
                 | None => None
                 end
             end
    | _ => joinrealpath fuel fs seen (acc ++ [name]) rest
    end.
Proof. by destruct fuel. Qed.




(** ** The sandbox *)

Lemma escape_raises {A} cwd path_ s (k : path → M A) :
  snd (safe_path_for_project cwd path_ s) = Raise escape_error →
  (let! p := safe_path_for_project cwd path_ in k p) s
  = (s, Raise escape_error).
Proof.
  intros H. unfold bind. pose proof (safe_path_pure cwd path_ s) as Hs.
  destruct (safe_path_for_project cwd path_ s) as [s' r]. cbn in *.
  by subst.
Qed.



(** The three ways out of the root named by the specification, and two
    ways of staying in. *)
Example escape_by_traversal :
  snd (read_file home "src/../../secret.txt" (mkStore linked_fs []))
  = Raise escape_error.
Proof. vm_compute. reflexivity. Qed.

Example escape_by_symlink :
  snd (read_file home "out/passwd" (mkStore linked_fs []))
  = Raise escape_error.
Proof. vm_compute. reflexivity. Qed.

Example escape_by_absolute_path :
  snd (read_file home "/etc/passwd" (mkStore linked_fs []))
  = Raise escape_error.
Proof. vm_compute. reflexivity. Qed.

Example inside_by_traversal :
  snd (read_file home "src/../src/./app.py" (mkStore linked_fs []))
  = Ok "print(1)".
Proof. vm_compute. reflexivity. Qed.

Example inside_by_absolute_path :
  snd (read_file home "/home/dev/generated_project/src/app.py"
         (mkStore linked_fs []))
  = Ok "print(1)".
Proof. vm_compute. reflexivity. Qed.

(** ** Shell commands *)

Lemma subprocess_run_expired cmd d timeout child s :
  stat (files s) d = Some Dir →
  (inject_Z timeout < duration child)%Q →
  subprocess_run cmd d timeout child s =
    (mkStore (child_effect child (files s))
             (trace s ++ [EvIsDir d; EvSpawn cmd d; EvKill cmd]),
     Raise (TimeoutExpired cmd timeout)).
Proof.
  intros Hd Hlt. unfold subprocess_run, bind, is_dir, log, get_files,
    put_files, ret, raise. cbn. rewrite Hd. cbn.
  destruct (Qlt_le_dec (inject_Z timeout) (duration child)) as [_|Hle].
  - cbn. by rewrite <- !app_assoc.
  - exfalso. exact (Qlt_not_le _ _ Hlt Hle).
Qed.

Lemma subprocess_run_never_ok_when_expired cmd d timeout child s r :
  (inject_Z timeout < duration child)%Q →
  snd (subprocess_run cmd d timeout child s) ≠ Ok r.
Proof.
  intros Hlt. unfold subprocess_run, bind, is_dir, log, get_files,
    put_files, ret, raise. cbn.
  destruct (stat (files s) d) as [[| |]|]; cbn; try discriminate.
  destruct (Qlt_le_dec (inject_Z timeout) (duration child)) as [_|Hle].
  - cbn. discriminate.
  - exfalso. exact (Qlt_not_le _ _ Hlt Hle).
Qed.

(** C2, as stated, fails: a command that would run five seconds under a
    timeout of one second does not make [run_cmd] return a result; the
    timeout exception of [subprocess.run] leaves [run_cmd] unhandled. *)
Lemma timeout_is_not_a_result :
  snd (run_cmd home "sleep 5" None 1 sleeper (mkStore sample_fs []))
  = Raise (TimeoutExpired "sleep 5" 1)
  ∧ ¬ ∃ r, snd (run_cmd home "sleep 5" None 1 sleeper
                  (mkStore sample_fs [])) = Ok r.
Proof.
  split.
  - vm_compute. reflexivity.
  - intros [r H]. vm_compute in H. discriminate.
Qed.

(** C2, amended: for every shell command whose execution exceeds the given
    timeout, [run_cmd] returns no [(exitCode, stdout, stderr)] result; when
    the working directory is a directory the child is spawned, killed on
    expiry, and [TimeoutExpired] is raised to the caller. *)
Theorem timeout_kills_child_and_raises cwd cmd cwd_arg timeout child s :
  (inject_Z timeout < duration child)%Q →
  (∀ r, snd (run_cmd cwd cmd cwd_arg timeout child s) ≠ Ok r)
  ∧ (∀ s1 d,
       run_cwd cwd cwd_arg s = (s1, Ok d) →
       stat (files s1) d = Some Dir →
       run_cmd cwd cmd cwd_arg timeout child s =
         (mkStore (child_effect child (files s1))
                  (trace s1 ++ [EvIsDir d; EvSpawn cmd d; EvKill cmd]),
          Raise (TimeoutExpired cmd timeout))).
Proof.
  intros Hlt. split.
  - intros r. unfold run_cmd, bind.
    destruct (run_cwd cwd cwd_arg s) as [s1 [d|ex]]; [|discriminate].
    by apply subprocess_run_never_ok_when_expired.
  - intros s1 d Hcwd Hd. unfold run_cmd, bind. rewrite Hcwd.
    by apply subprocess_run_expired.
Qed.

Lemma timeout_kills_child_and_raises_witness :
  (∀ r, snd (run_cmd home "sleep 5" (Some "src") 1 sleeper
               (mkStore linked_fs [])) ≠ Ok r)
  ∧ (∀ s1 d,
       run_cwd home (Some "src") (mkStore linked_fs []) = (s1, Ok d) →
       stat (files s1) d = Some Dir →
       run_cmd home "sleep 5" (Some "src") 1 sleeper (mkStore linked_fs [])
       = (mkStore (child_effect sleeper (files s1))
                  (trace s1 ++ [EvIsDir d; EvSpawn "sleep 5" d;
                                EvKill "sleep 5"]),
          Raise (TimeoutExpired "sleep 5" 1))).
Proof.
  apply (timeout_kills_child_and_raises home "sleep 5" (Some "src") 1
           sleeper (mkStore linked_fs [])).
  reflexivity.
Defined.

(** ** Listing *)

Lemma safe_path_inv cwd path_ s s' p :
  safe_path_for_project cwd path_ s = (s', Ok p) →
  s' = s
  ∧ resolve (files s) (joinpath (PROJECT_ROOT cwd) path_) = Ok p
  ∧ ∃ r, resolve (files s) (PROJECT_ROOT cwd) = Ok r ∧ r `prefix_of` p.
Proof.
  intros H. pose proof (safe_path_pure cwd path_ s) as Hs.
  rewrite H in Hs. cbn in Hs. subst s'. split; [done|].
  unfold safe_path_for_project, bind, get_files, lift_res in H.
  destruct (resolve (files s) (joinpath _ _)) as [p'|] eqn:Hp;
    [|discriminate].
  destruct (resolve (files s) (PROJECT_ROOT cwd)) as [r|] eqn:Hr;
    [|discriminate].
  destruct (_ && _) eqn:Ht; [discriminate|]. inversion H; subst.
  split; [done|]. exists r. split; [done|].
  destruct (decide (r `prefix_of` p)) as [|Hn]; [done|].
  apply escape_test in Hn. congruence.
Qed.






Lemma is_dir_spec p s :
  is_dir p s =
    (mkStore (files s) (trace s ++ [EvIsDir p]),
     Ok (match stat (files s) p with Some Dir => true | _ => false end)).
Proof. reflexivity. Qed.





(** Under a root reached through a link the resolved entries are not below
    [PROJECT_ROOT] as written, and [relative_to] raises. *)
Example list_files_under_linked_root :
  snd (list_files home "." (mkStore linked_root_fs []))
  = Raise (ValueError "is not in the subpath")
  ∧ snd (read_file home "a.txt" (mkStore linked_root_fs [])) = Ok "a".
Proof. split; vm_compute; reflexivity. Qed.

Example list_files_of_linked_workspace :
  snd (list_files home "." (mkStore linked_fs [])) = Ok "src/app.py".
Proof. vm_compute. reflexivity. Qed.

(** ** Resolved paths *)

Lemma joinrealpath_mono fuel : ∀ fuel' fs seen acc rest q,
  (fuel ≤ fuel')%nat →
  joinrealpath fuel fs seen acc rest = Some q →
  joinrealpath fuel' fs seen acc rest = Some q.
Proof.
  induction fuel as [|fuel IHf]; intros fuel' fs seen acc rest q Hle;
    revert acc; induction rest as [|name rest IH]; intros acc;
    rewrite ?joinrealpath_nil; try done;
    rewrite !joinrealpath_cons;
    destruct (decide (name = "" ∨ name = ".")); try apply IH;
    destruct (decide (name = "..")); try apply IH;
    destruct (lstat fs (acc ++ [name])) as [[| |target]|]; try apply IH;
    destruct (decide (acc ++ [name] ∈ seen)); try done.
  destruct fuel' as [|fuel']; [lia|].
  destruct (joinrealpath fuel fs _ _ _) as [a|] eqn:Hin; [|done].
  rewrite (IHf fuel' _ _ _ _ _ ltac:(lia) Hin). apply IH.
Qed.

(** Resolution looks at the links of a snapshot only. *)
Lemma joinrealpath_ext fuel : ∀ fs fs' seen acc rest,
  (∀ q, readlink fs q = readlink fs' q) →
  joinrealpath fuel fs seen acc rest = joinrealpath fuel fs' seen acc rest.
Proof.
  induction fuel as [|fuel IHf]; intros fs fs' seen acc rest Hl;
    revert acc; induction rest as [|name rest IH]; intros acc;
    rewrite ?joinrealpath_nil; try done;
    rewrite !joinrealpath_cons;
    destruct (decide (name = "" ∨ name = ".")); try apply IH;
    destruct (decide (name = "..")); try apply IH;
    pose proof (Hl (acc ++ [name])) as Hq; unfold readlink in Hq;
    destruct (lstat fs (acc ++ [name])) as [[| |t]|];
    destruct (lstat fs' (acc ++ [name])) as [[| |t']|];
    try discriminate; try apply IH;
    inversion Hq; subst;
    destruct (decide (acc ++ [name] ∈ seen)); try done.
  rewrite (IHf fs fs' _ _ _ Hl).
  destruct (joinrealpath fuel fs' _ _ _); [apply IH|done].
Qed.

Lemma link_free_nil fs : link_free fs [].
Proof. intros q Hq. apply prefix_nil_inv in Hq as ->. done. Qed.

Lemma link_free_prefix fs (p q : path) :
  link_free fs p → q `prefix_of` p → link_free fs q.
Proof. intros Hp Hq r Hr. apply Hp. by etrans. Qed.

Lemma link_free_snoc fs (p : path) name :
  link_free fs p → readlink fs (p ++ [name]) = None →
  link_free fs (p ++ [name]).
Proof.
  intros Hp Hn q Hq.
  destruct (decide (q = p ++ [name])) as [->|Hne]; [done|].
  apply Hp. destruct Hq as [k Hk].
  destruct (decide (k = [])) as [->|Hk'].
  { rewrite app_nil_r in Hk. congruence. }
  destruct (exists_last Hk') as (k0 & c & ->).
  rewrite app_assoc in Hk. apply app_inj_tail in Hk as [-> _].
  by eexists.
Qed.

Lemma removelast_prefix (p : path) : removelast p `prefix_of` p.
Proof. apply parent_prefix. Qed.

(** What is resolved has no symbolic link among its components. *)
Lemma joinrealpath_link_free fuel : ∀ fs seen acc rest q,
  link_free fs acc →
  joinrealpath fuel fs seen acc rest = Some q →
  link_free fs q.
Proof.
  induction fuel as [|fuel IHf]; intros fs seen acc rest q;
    revert acc; induction rest as [|name rest IH]; intros acc Hacc;
    rewrite ?joinrealpath_nil; try (by intros [= <-]);
    rewrite !joinrealpath_cons;
    destruct (decide (name = "" ∨ name = ".")); try (by apply IH);
    destruct (decide (name = ".."));
    try (apply IH; eapply link_free_prefix;
         [exact Hacc|apply removelast_prefix]);
    destruct (lstat fs (acc ++ [name])) as [[c| |target]|] eqn:Hl;
    try (apply IH; apply link_free_snoc; [done|];
         unfold readlink; by rewrite Hl);
    destruct (decide (acc ++ [name] ∈ seen)); try done.
  destruct (joinrealpath fuel fs _ _ _) as [a|] eqn:Hin; [|done].
  apply IH. eapply IHf; [|exact Hin].
  destruct (is_absolute target); [apply link_free_nil|done].
Qed.

Lemma realpath_link_free fs (x : list string) (p : path) :
  realpath fs x = Some p → link_free fs p.
Proof. apply joinrealpath_link_free, link_free_nil. Qed.

Lemma safe_path_canonical cwd path_ s s' p :
  safe_path_for_project cwd path_ s = (s', Ok p) → link_free (files s) p.
Proof.
  intros H. destruct (safe_path_inv _ _ _ _ _ H) as (_ & Hp & _).
  unfold resolve in Hp.
  destruct (realpath (files s) _) as [q|] eqn:Hq; [|discriminate].
  inversion Hp; subst. by eapply realpath_link_free.
Qed.

(** ** Creating directories *)

Lemma lstat_insert fs (d q : path) n :
  d ≠ [] →
  lstat (<[d := n]> fs) q = if decide (d = q) then Some n else lstat fs q.
Proof.
  intros Hd. unfold lstat. destruct q as [|c q].
  - by rewrite decide_False.
  - by rewrite lookup_insert.
Qed.

Lemma lstat_lookup fs (q : path) : q ≠ [] → lstat fs q = fs !! q.
Proof. by destruct q. Qed.

Lemma grown_refl fs : grown fs fs.
Proof. intros q. by left. Qed.

Lemma grown_trans fs1 fs2 fs3 : grown fs1 fs2 → grown fs2 fs3 → grown fs1 fs3.
Proof.
  intros H12 H23 q. destruct (H12 q) as [E1|[N1 D1]];
    destruct (H23 q) as [E2|[N2 D2]]; try (left; congruence);
    try (right; split; congruence).
Qed.

Lemma grown_insert fs (d : path) :
  fs !! d = None → grown fs (<[d := Dir]> fs).
Proof.
  intros Hd q. rewrite lookup_insert. case_decide; subst; auto.
Qed.

Lemma grown_lstat fs fs' (q : path) :
  grown fs fs' →
  lstat fs' q = lstat fs q ∨ (lstat fs q = None ∧ lstat fs' q = Some Dir).
Proof.
  intros Hg. destruct q as [|c q]; [by left|]. apply Hg.
Qed.

Lemma grown_readlink fs fs' (q : path) :
  grown fs fs' → readlink fs' q = readlink fs q.
Proof.
  intros Hg. unfold readlink.
  destruct (grown_lstat fs fs' q Hg) as [->|[-> ->]]; done.
Qed.

Lemma grown_size fs fs' : grown fs fs' → (size fs ≤ size fs')%nat.
Proof.
  intros Hg. rewrite <- !size_dom. apply subseteq_size.
  intros q [n Hn]%elem_of_dom. apply elem_of_dom.
  destruct (Hg q) as [->|[? ?]]; [by eexists|congruence].
Qed.

(** In a well-formed snapshot every ancestor of an entry is a directory. *)
Lemma well_formed_ancestors fs (d : path) :
  well_formed fs → is_Some (lstat fs d) →
  ∀ q, q `prefix_of` d → q ≠ d → lstat fs q = Some Dir.
Proof.
  intros Hwf. induction d as [|c d IH] using rev_ind; intros Hd q Hq Hne.
  - apply prefix_nil_inv in Hq. done.
  - assert (Hpar : lstat fs d = Some Dir).
    { destruct Hd as [n Hn]. rewrite lstat_lookup in Hn
        by (by destruct d).
      pose proof (Hwf _ _ Hn) as Hp. cbn in Hp. unfold parent in Hp.
      by rewrite removelast_last in Hp. }
    destruct Hq as [k Hk]. destruct (decide (k = [])) as [->|Hk'].
    { rewrite app_nil_r in Hk. congruence. }
    destruct (exists_last Hk') as (k0 & c' & ->).
    rewrite app_assoc in Hk. apply app_inj_tail in Hk as [-> _].
    destruct (decide (k0 = [])) as [->|Hk0].
    { by rewrite app_nil_r in Hpar. }
    apply IH; [by rewrite Hpar|by eexists|].
    intros Heq. apply Hk0. apply (app_inv_head q).
    by rewrite app_nil_r.
Qed.

Lemma os_mkdir_exists (d : path) s :
  is_Some (lstat (files s) d) →
  os_mkdir d s = (mkStore (files s) (trace s ++ [EvMkdir d]),
                  Raise FileExistsError).
Proof.
  intros [n Hn]. unfold os_mkdir, bind, log, get_files. cbn.
  by rewrite Hn.
Qed.

Lemma os_mkdir_creates (d : path) s :
  lstat (files s) d = None → lstat (files s) (parent d) = Some Dir →
  os_mkdir d s = (mkStore (<[d := Dir]> (files s)) (trace s ++ [EvMkdir d]),
                  Ok tt).
Proof.
  intros Hn Hp. unfold os_mkdir, bind, log, get_files. cbn.
  by rewrite Hn, Hp.
Qed.

Lemma os_mkdir_no_parent (d : path) s :
  lstat (files s) d = None → lstat (files s) (parent d) = None →
  os_mkdir d s = (mkStore (files s) (trace s ++ [EvMkdir d]),
                  Raise FileNotFoundError).
Proof.
  intros Hn Hp. unfold os_mkdir, bind, log, get_files. cbn.
  by rewrite Hn, Hp.
Qed.

Lemma stat_dir fs (d : path) : lstat fs d = Some Dir → stat fs d = Some Dir.
Proof. unfold stat. by intros ->. Qed.

Lemma prefix_snoc_inv (q d : path) c :
  q `prefix_of` d ++ [c] → q = d ++ [c] ∨ q `prefix_of` d.
Proof.
  intros [k Hk]. destruct (decide (k = [])) as [->|Hk'].
  { left. by rewrite app_nil_r in Hk. }
  right. destruct (exists_last Hk') as (k0 & c' & ->).
  rewrite app_assoc in Hk. apply app_inj_tail in Hk as [-> _].
  by eexists.
Qed.

Lemma snoc_not_prefix (d : path) c : ¬ (d ++ [c]) `prefix_of` d.
Proof.
  intros Hp. apply prefix_length in Hp. rewrite length_app in Hp.
  cbn in Hp. lia.
Qed.

(** [Path.mkdir(parents=True, exist_ok=True)] succeeds when no component
    is in the way, and leaves every component a directory. *)
Lemma mkdir_parents_rev_ok rd : ∀ s,
  well_formed (files s) →
  dirs_or_absent (files s) (rev rd) →
  ∃ s', mkdir_parents_rev rd s = (s', Ok tt)
        ∧ (∀ q, q `prefix_of` rev rd → lstat (files s') q = Some Dir)
        ∧ grown (files s) (files s')
        ∧ (∀ q, ¬ q `prefix_of` rev rd → files s' !! q = files s !! q).
Proof.
  induction rd as [|c rp IH]; intros s Hwf Hok.
  - cbn [mkdir_parents_rev rev]. rewrite os_mkdir_exists by by eexists.
    rewrite is_dir_spec. cbn. eexists. split; [done|]. split; [|split].
    + intros q Hq. apply prefix_nil_inv in Hq as ->. done.
    + apply grown_refl.
    + done.
  - cbn [mkdir_parents_rev]. cbn [rev] in *.
    assert (Hne : rev rp ++ [c] ≠ []) by (by destruct (rev rp)).
    assert (Hpar : parent (rev rp ++ [c]) = rev rp)
      by apply removelast_last.
    destruct (Hok (rev rp ++ [c])) as [Hd|Hd]; [done| |].
    + (* the directory exists *)
      rewrite os_mkdir_exists by by eexists.
      rewrite is_dir_spec. cbn [files]. rewrite (stat_dir _ _ Hd).
      eexists. split; [done|]. split; [|split; [apply grown_refl|done]].
      intros q Hq. cbn [files].
      destruct (decide (q = rev rp ++ [c])) as [->|Hq']; [done|].
      eapply well_formed_ancestors; eauto.
    + destruct (Hok (rev rp)) as [Hp|Hp]; [by eexists [c]| |].
      * (* the parent exists *)
        rewrite os_mkdir_creates by by rewrite ?Hpar.
        eexists. split; [done|]. cbn [files]. split; [|split].
        -- intros q Hq. rewrite lstat_insert by done.
           case_decide; [done|].
           apply prefix_snoc_inv in Hq as [->|Hq]; [done|].
           destruct (decide (q = rev rp)) as [->|Hq']; [done|].
           eapply well_formed_ancestors; eauto.
        -- apply grown_insert. by rewrite <- lstat_lookup.
        -- intros q Hq. rewrite lookup_insert_ne; [done|].
           by intros <-.
      * (* the parent is missing *)
        rewrite os_mkdir_no_parent by by rewrite ?Hpar.
        unfold bind.
        destruct (IH (mkStore (files s)
                        (trace s ++ [EvMkdir (rev rp ++ [c])])))
          as (s1 & Hrun & Hdirs & Hgrown & Hframe); [done| |].
        { intros q Hq. apply Hok. etrans; [done|]. by eexists [c]. }
        rewrite Hrun. cbn [files] in *. unfold mkdir_exist_ok.
        assert (Hd1 : lstat (files s1) (rev rp ++ [c]) = None).
        { rewrite lstat_lookup in * by done.
          rewrite Hframe; [done|]. apply snoc_not_prefix. }
        rewrite os_mkdir_creates; [|done|rewrite Hpar; by apply Hdirs].
        eexists. split; [done|]. cbn [files]. split; [|split].
        -- intros q Hq. rewrite lstat_insert by done.
           case_decide; [done|].
           apply prefix_snoc_inv in Hq as [->|Hq]; [done|]. by apply Hdirs.
        -- eapply grown_trans; [exact Hgrown|].
           apply grown_insert. by rewrite <- lstat_lookup.
        -- intros q Hq. rewrite lookup_insert_ne by (by intros <-).
           apply Hframe. intros Hq'. apply Hq. etrans; [done|].
           by eexists [c].
Qed.

(** ** Writing and reading back *)







Lemma size_extends (fs fs' : gmap path node) :
  (∀ q, is_Some (fs !! q) → is_Some (fs' !! q)) →
  (size fs ≤ size fs')%nat.
Proof.
  intros H. rewrite <- !size_dom. apply subseteq_size.
  intros q Hq%elem_of_dom. by apply elem_of_dom, H.
Qed.

(** A snapshot that has the same links and at least the same entries
    resolves what the smaller one resolves, to the same path. *)
Lemma realpath_stable fs fs' (x : list string) (p : path) :
  (∀ q, readlink fs' q = readlink fs q) →
  (∀ q, is_Some (fs !! q) → is_Some (fs' !! q)) →
  realpath fs x = Some p → realpath fs' x = Some p.
Proof.
  intros Hl Hext Hp. unfold realpath in *.
  rewrite (joinrealpath_ext _ fs' fs) by done.
  eapply joinrealpath_mono; [|exact Hp].
  apply le_n_S. by apply size_extends.
Qed.

Lemma resolve_stable fs fs' (x : list string) (p : path) :
  (∀ q, readlink fs' q = readlink fs q) →
  (∀ q, is_Some (fs !! q) → is_Some (fs' !! q)) →
  resolve fs x = Ok p → resolve fs' x = Ok p.
Proof.
  intros Hl Hext. unfold resolve.
  destruct (realpath fs x) as [q|] eqn:Hq; [|discriminate].
  intros [= <-]. by rewrite (realpath_stable fs fs' x q).
Qed.



Lemma dirs_or_absent_check fs (d : path) :
  forallb (λ q, bool_decide (lstat fs q = Some Dir ∨ lstat fs q = None))
          (d :: parents d) = true →
  dirs_or_absent fs d.
Proof.
  intros H q Hq. rewrite forallb_forall in H.
  assert (Hin : In q (d :: parents d)).
  { apply list_elem_of_In.
    destruct (decide (q = d)) as [->|Hne]; [left|right].
    by apply elem_of_parents. }
  apply H in Hin. by apply bool_decide_eq_true in Hin.
Qed.



Example write_then_read_empty :
  snd (read_file home "empty.txt"
         (fst (write_file home "empty.txt" "" (mkStore sample_fs []))))
  = Ok "".
Proof. vm_compute. reflexivity. Qed.

Example write_overwrites :
  snd (read_file home "src/app.py"
         (fst (write_file home "src/app.py" "print(2)"
                 (mkStore linked_fs []))))
  = Ok "print(2)".
Proof. vm_compute. reflexivity. Qed.

(** ** Whole runs *)

(** Immediate approval at both checkpoints: the two steps are processed and
    the run ends done, cursor at 2, after seven super-steps (planner, plan
    review, architect, task plan review, and three coder invocations). *)
Example approved_run :
  match snd (agent_invoke home 25 (initial_state "a note taking app")
               (sample_env quick_call ["yes"; "yes"])) with
  | Ok st =>
      get (status st) = Some "DONE"
      ∧ (current_step_idx <$> get (coder_state st)) = Some 2
  | Raise _ => False
  end
  ∧ (fst <$> match snd (steps home 6 planner
                          (initial_state "a note taking app")
                          (sample_env quick_call ["yes"; "yes"])) with
             | Ok c => Some c
             | Raise _ => None
             end) = Some coder.
Proof. vm_compute. done. Qed.

(** An edit of the plan: the planner is asked once for a plan and once for
    the revision of that plan by the edit text; the architect, which runs
    after the revision was approved, is asked for a fresh task plan, and no
    edit request is left in the final state. *)
Example edited_run :
  let out := agent_invoke home 25 (initial_state "a note taking app")
               (sample_env quick_call
                  ["edit"; "add dark mode"; "yes"; "yes"]) in
  take 3 (sent (fst out))
  = [PlannerPrompt (Some "a note taking app");
     PlanRevisionPrompt sample_plan "add dark mode";
     ArchitectPrompt sample_plan]
  ∧ match snd out with
    | Ok st => get (edit_request st) = None
               ∧ get (previous_plan st) = None
    | Raise _ => False
    end.
Proof. vm_compute. done. Qed.

(** * Further properties *)

(** ** Computations that keep a relation *)

Section Preserves.
Context {S : Type} (P : S → S → Prop).
Hypothesis P_refl : ∀ s, P s s.
Hypothesis P_trans : ∀ s1 s2 s3, P s1 s2 → P s2 s3 → P s1 s3.

Lemma preserves_ret {A} (a : A) : preserves P (ret a).
Proof. intros s. apply P_refl. Qed.

Lemma preserves_raise {A} ex : preserves P (@raise S A ex).
Proof. intros s. apply P_refl. Qed.

Lemma preserves_lift_res {A} (r : res A) : preserves P (lift_res r).
Proof. intros s. apply P_refl. Qed.

Lemma preserves_bind {A B} (m : ST S A) (k : A → ST S B) :
  preserves P m → (∀ a, preserves P (k a)) → preserves P (bind m k).
Proof.
  intros Hm Hk s. unfold bind. specialize (Hm s).
  destruct (m s) as [s1 [a|ex]]; cbn in *; [|done].
  eapply P_trans; [exact Hm|]. apply Hk.
Qed.

(** [try: m  except Exception: handler]. *)
Lemma preserves_try {A} (m : ST S A) (handler : exn → ST S A) :
  preserves P m → (∀ ex, preserves P (handler ex)) →
  preserves P (λ s, match m s with
                    | (s', Ok a) => (s', Ok a)
                    | (s', Raise ex) => handler ex s'
                    end).
Proof.
  intros Hm Hh s. specialize (Hm s).
  destruct (m s) as [s1 [a|ex]]; cbn in *; [done|].
  eapply P_trans; [exact Hm|]. apply Hh.
Qed.
End Preserves.

(** ** The footprint of the file tools *)

Lemma os_mkdir_footprint (d : path) s :
  files (fst (os_mkdir d s)) = files s
  ∨ (d ≠ [] ∧ files s !! d = None
     ∧ files (fst (os_mkdir d s)) = <[d := Dir]> (files s)).
Proof.
  unfold os_mkdir, bind, log, get_files, put_files, raise. cbn.
  destruct (lstat (files s) d) as [n|] eqn:Hd; [by left|].
  destruct (lstat (files s) (parent d)) as [[| |]|]; cbn; try by left.
  right. destruct d as [|c d]; [done|]. by repeat split.
Qed.

Lemma is_dir_files p s : files (fst (is_dir p s)) = files s.
Proof. reflexivity. Qed.

Lemma grown_os_mkdir (d : path) s :
  grown (files s) (files (fst (os_mkdir d s)))
  ∧ (∀ q, q ≠ d → files (fst (os_mkdir d s)) !! q = files s !! q).
Proof.
  destruct (os_mkdir_footprint d s) as [->|(Hne & Hd & ->)].
  - split; [apply grown_refl|done].
  - split; [by apply grown_insert|].
    intros q Hq. by rewrite lookup_insert_ne.
Qed.

Lemma grown_mkdir_exist_ok (d : path) s :
  grown (files s) (files (fst (mkdir_exist_ok d s)))
  ∧ (∀ q, q ≠ d → files (fst (mkdir_exist_ok d s)) !! q = files s !! q).
Proof.
  unfold mkdir_exist_ok. pose proof (grown_os_mkdir d s) as Hm.
  destruct (os_mkdir d s) as [s1 [[]|ex]]; [done|].
  destruct ex; try done;
    rewrite is_dir_spec;
    destruct (match stat (files s1) d with Some Dir => true | _ => false
              end); done.
Qed.

(** [Path.mkdir(parents=True, exist_ok=True)] only ever adds directories,
    and only on the path it is given, whether it succeeds or not. *)
Lemma grown_mkdir_parents_rev rd : ∀ s,
  grown (files s) (files (fst (mkdir_parents_rev rd s)))
  ∧ (∀ q, ¬ q `prefix_of` rev rd →
       files (fst (mkdir_parents_rev rd s)) !! q = files s !! q).
Proof.
  induction rd as [|c rp IH]; intros s; cbn [mkdir_parents_rev].
  - pose proof (grown_os_mkdir (rev []) s) as [Hg Hf].
    assert (Hf' : ∀ q : path, ¬ q `prefix_of` rev [] →
              files (fst (os_mkdir (rev []) s)) !! q = files s !! q).
    { intros q Hq. apply Hf. by intros ->. }
    destruct (os_mkdir (rev []) s) as [s1 [[]|ex]]; [done|].
    destruct ex; try done;
      rewrite is_dir_spec;
      destruct (match stat (files s1) _ with Some Dir => true | _ => false
                end); done.
  - pose proof (grown_os_mkdir (rev (c :: rp)) s) as [Hg Hf].
    assert (Hf' : ∀ q : path, ¬ q `prefix_of` rev (c :: rp) →
              files (fst (os_mkdir (rev (c :: rp)) s)) !! q
              = files s !! q).
    { intros q Hq. apply Hf. by intros ->. }
    destruct (os_mkdir (rev (c :: rp)) s) as [s1 [[]|ex]]; [done|].
    cbn [fst] in *.
    destruct ex; try (rewrite is_dir_spec;
      destruct (match stat (files s1) _ with Some Dir => true | _ => false
                end); done).
    unfold bind. destruct (IH s1) as [Hg1 Hf1].
    destruct (mkdir_parents_rev rp s1) as [s2 [[]|ex]]; cbn [fst] in *.
    + destruct (grown_mkdir_exist_ok (rev (c :: rp)) s2) as [Hg2 Hf2].
      split.
      * eapply grown_trans; [exact Hg|].
        eapply grown_trans; [exact Hg1|exact Hg2].
      * intros q Hq. rewrite Hf2 by (by intros ->).
        rewrite Hf1; [by apply Hf'|].
        intros Hq'. apply Hq. cbn [rev]. etrans; [exact Hq'|].
        by eexists [c].
    + split.
      * eapply grown_trans; [exact Hg|exact Hg1].
      * intros q Hq. rewrite Hf1; [by apply Hf'|].
        intros Hq'. apply Hq. cbn [rev]. etrans; [exact Hq'|].
        by eexists [c].
Qed.

Lemma open_write_footprint (p : path) content s :
  readlink (files s) p = None →
  files (fst (open_write p content s)) = files s
  ∨ (p ≠ [] ∧ files s !! p ≠ Some Dir
     ∧ files (fst (open_write p content s))
       = <[p := RegularFile content]> (files s)).
Proof.
  intros Hl. unfold open_write, bind, log, get_files, lift_res,
    follow_final, put_files, raise. cbn [fst snd files trace].
  unfold readlink in Hl.
  assert (Hnd : lstat (files s) p ≠ Some Dir → p ≠ [] ∧
                  files s !! p ≠ Some Dir).
  { intros Hd. destruct p; [done|]. by split. }
  destruct (lstat (files s) p) as [[c0| |t]|] eqn:Hlp; try discriminate;
    cbn [fst snd files trace]; rewrite ?Hlp; try (by left);
    destruct (lstat (files s) (parent p)) as [[| |]|];
    cbn [fst snd files trace]; try (by left);
    right; destruct Hnd as [? ?]; done.
Qed.

(** [write_file] changes at most three kinds of entries, whether it
    succeeds or not: the resolved target becomes a regular file with the
    given content (it was not a directory), and missing ancestors of the
    target become directories. *)
Lemma write_file_changes cwd path_ content s (q : path) :
  let s' := fst (write_file cwd path_ content s) in
  files s' !! q = files s !! q
  ∨ (∃ p, snd (safe_path_for_project cwd path_ s) = Ok p
          ∧ q `prefix_of` parent p
          ∧ files s !! q = None ∧ files s' !! q = Some Dir)
  ∨ (snd (safe_path_for_project cwd path_ s) = Ok q
     ∧ files s !! q ≠ Some Dir
     ∧ files s' !! q = Some (RegularFile content)).
Proof.
  cbn zeta. remember (fst (write_file cwd path_ content s)) as s' eqn:Hs'.
  unfold write_file, bind, mkdir_parents in Hs'.
  pose proof (safe_path_pure cwd path_ s) as Hpure.
  destruct (safe_path_for_project cwd path_ s) as [s0 [p|ex]] eqn:Hsafe;
    cbn in Hpure; subst s0; [|left; by subst s'].
  pose proof (safe_path_canonical _ _ _ _ _ Hsafe) as Hfree.
  cbn [snd]. destruct (grown_mkdir_parents_rev (rev (parent p)) s)
    as [Hg Hf].
  rewrite rev_involutive in Hf.
  destruct (mkdir_parents_rev (rev (parent p)) s) as [s1 [[]|ex]];
    cbn [fst] in *.
  2:{ subst s'. destruct (decide (q `prefix_of` parent p)) as [Hp|Hp].
      - destruct (Hg q) as [?|[? ?]]; [by left|].
        right. left. by exists p.
      - left. by apply Hf. }
  assert (Hl1 : readlink (files s1) p = None).
  { rewrite (grown_readlink _ _ _ Hg). by apply (Hfree p). }
  pose proof (open_write_footprint p content s1 Hl1) as Hw.
  assert (Hs2 : files s' = files (fst (open_write p content s1))).
  { subst s'. by destruct (open_write p content s1) as [s2 [[]|ex]]. }
  clear Hs'. rewrite Hs2.
  destruct Hw as [Hw|(Hne & Hnd & Hw)]; rewrite Hw.
  - destruct (decide (q `prefix_of` parent p)) as [Hp|Hp].
    + destruct (Hg q) as [?|[? ?]]; [by left|].
      right. left. by exists p.
    + left. by apply Hf.
  - destruct (decide (q = p)) as [->|Hqp].
    + right. right. rewrite lookup_insert_eq.
      repeat split; try done. rewrite <- Hf; [done|].
      rewrite (app_removelast_last "" Hne) at 1. apply snoc_not_prefix.
    + rewrite lookup_insert_ne by done.
      destruct (decide (q `prefix_of` parent p)) as [Hp|Hp].
      * destruct (Hg q) as [?|[? ?]]; [by left|].
        right. left. by exists p.
      * left. by apply Hf.
Qed.

(** ** Confinement *)

Lemma readlink_lookup fs fs' (q : path) :
  fs' !! q = fs !! q → readlink fs' q = readlink fs q.
Proof. intros H. unfold readlink, lstat. destruct q; [done|]. by rewrite H. Qed.

Lemma confined_refl r fs : confined r fs fs.
Proof. by repeat split. Qed.

Lemma confined_trans r fs1 fs2 fs3 :
  confined r fs1 fs2 → confined r fs2 fs3 → confined r fs1 fs3.
Proof.
  intros (L1 & E1 & O1 & N1) (L2 & E2 & O2 & N2). repeat split.
  - intros q. by rewrite L2.
  - intros q Hq. by apply E2, E1.
  - intros q n Hq Hout. eapply O2; [|done]. by eapply O1.
  - intros q c Hq Hne. destruct (decide (r `prefix_of` q)) as [|Hout];
      [done|].
    destruct (decide (fs2 !! q = Some (RegularFile c))) as [H2|H2].
    + by eapply N1.
    + by eapply N2.
Qed.

Lemma confined_resolve r fs fs' (x : list string) (p : path) :
  confined r fs fs' → resolve fs x = Ok p → resolve fs' x = Ok p.
Proof. intros (L & E & _). by apply resolve_stable. Qed.

Lemma sandboxed_refl cwd s : sandboxed cwd s s.
Proof. intros r _. apply confined_refl. Qed.

Lemma sandboxed_trans cwd s1 s2 s3 :
  sandboxed cwd s1 s2 → sandboxed cwd s2 s3 → sandboxed cwd s1 s3.
Proof.
  intros H12 H23 r Hr. eapply confined_trans; [by apply H12|].
  apply H23. eapply confined_resolve; [by apply H12|done].
Qed.

Lemma same_files_sandboxed cwd s s' : same_files s s' → sandboxed cwd s s'.
Proof. unfold same_files. intros H r _. rewrite H. apply confined_refl. Qed.

Lemma write_file_sandboxed cwd path_ content :
  preserves (sandboxed cwd) (write_file cwd path_ content).
Proof.
  intros s r Hr.
  assert (Hp : ∀ p, snd (safe_path_for_project cwd path_ s) = Ok p →
                r `prefix_of` p ∧ readlink (files s) p = None).
  { intros p Hp. pose proof (safe_path_pure cwd path_ s) as Hpure.
    destruct (safe_path_for_project cwd path_ s) as [s0 res] eqn:Hsafe.
    cbn in Hp, Hpure. subst.
    destruct (safe_path_inv _ _ _ _ _ Hsafe) as (_ & _ & r' & Hr' & Hpre).
    split; [congruence|].
    by apply (safe_path_canonical _ _ _ _ _ Hsafe p). }
  repeat split.
  - intros q.
    destruct (write_file_changes cwd path_ content s q)
      as [H|[(p & _ & _ & Hn & Hd)|(Hq & Hnd & Hw)]].
    + by apply readlink_lookup.
    + unfold readlink, lstat. destruct q; [done|]. by rewrite Hn, Hd.
    + destruct (Hp q Hq) as [_ Hl]. rewrite Hl.
      unfold readlink, lstat. destruct q; [done|]. by rewrite Hw.
  - intros q [n Hn].
    destruct (write_file_changes cwd path_ content s q)
      as [H|[(p & _ & _ & Hn' & Hd)|(Hq & Hnd & Hw)]].
    + rewrite H. by eexists.
    + congruence.
    + rewrite Hw. by eexists.
  - intros q n Hn Hout.
    destruct (write_file_changes cwd path_ content s q)
      as [H|[(p & _ & _ & Hn' & Hd)|(Hq & Hnd & Hw)]].
    + by rewrite H.
    + congruence.
    + destruct (Hp q Hq) as [Hin _]. done.
  - intros q c Hc Hne.
    destruct (write_file_changes cwd path_ content s q)
      as [H|[(p & _ & _ & Hn' & Hd)|(Hq & Hnd & Hw)]].
    + congruence.
    + congruence.
    + by destruct (Hp q Hq) as [Hin _].
Qed.

(** ** Tools that only look *)

Lemma same_files_refl s : same_files s s.
Proof. reflexivity. Qed.

Lemma same_files_trans s1 s2 s3 :
  same_files s1 s2 → same_files s2 s3 → same_files s1 s3.
Proof. unfold same_files. congruence. Qed.

Create HintDb keeps discriminated.

Lemma keeps_log ev : preserves same_files (log ev).
Proof. intros s. reflexivity. Qed.

Lemma keeps_get_files : preserves same_files get_files.
Proof. intros s. reflexivity. Qed.

Lemma keeps_is_dir p : preserves same_files (is_dir p).
Proof. intros s. reflexivity. Qed.

Lemma keeps_is_file p : preserves same_files (is_file p).
Proof. intros s. reflexivity. Qed.

Lemma keeps_exists p : preserves same_files (exists_ p).
Proof. intros s. reflexivity. Qed.

Lemma keeps_glob_all p : preserves same_files (glob_all p).
Proof. intros s. reflexivity. Qed.

Lemma keeps_open_read p : preserves same_files (open_read p).
Proof.
  intros s. unfold open_read, bind, log, get_files. cbn.
  by destruct (stat (files s) p) as [[| |]|].
Qed.

Lemma keeps_safe_path cwd path_ :
  preserves same_files (safe_path_for_project cwd path_).
Proof. intros s. unfold same_files. by rewrite safe_path_pure. Qed.

#[export] Hint Resolve keeps_log keeps_get_files keeps_is_dir keeps_is_file
  keeps_exists keeps_glob_all keeps_open_read keeps_safe_path : keeps.

(** Push a relation through the structure of a computation: returns,
    raises, binds, case distinctions; [prims] closes the primitive calls. *)
Ltac keep Hrefl Htrans prims :=
  repeat first
    [ apply (preserves_ret _ Hrefl)
    | apply (preserves_raise _ Hrefl)
    | apply (preserves_lift_res _ Hrefl)
    | apply (preserves_bind _ Htrans); [|intros ?]
    | prims
    | match goal with
      | |- preserves _ (match ?x with _ => _ end) => destruct x
      | |- preserves _ (if ?b then _ else _) => destruct b
      end ].

Ltac keep_files :=
  keep same_files_refl same_files_trans ltac:(solve [auto with keeps]).

Lemma keeps_read_file cwd path_ :
  preserves same_files (read_file cwd path_).
Proof. unfold read_file. keep_files. Qed.

Lemma keeps_relative_files cwd entries :
  preserves same_files (relative_files cwd entries).
Proof.
  induction entries as [|f rest IH]; cbn [relative_files]; keep_files.
Qed.

#[export] Hint Resolve keeps_relative_files : keeps.

Lemma keeps_list_files cwd directory :
  preserves same_files (list_files cwd directory).
Proof. unfold list_files. keep_files. Qed.

Lemma keeps_get_current_directory cwd :
  preserves same_files (get_current_directory cwd).
Proof. unfold get_current_directory. keep_files. Qed.

(** ** Tool calls of the backend *)

Lemma run_tool_sandboxed cwd tc : preserves (sandboxed cwd) (run_tool cwd tc).
Proof.
  intros s. unfold run_tool. cbn [fst].
  destruct tc as [p|p c|d|].
  - apply same_files_sandboxed, keeps_read_file.
  - apply write_file_sandboxed.
  - apply same_files_sandboxed, keeps_list_files.
  - apply same_files_sandboxed, keeps_get_current_directory.
Qed.

Lemma run_tools_sandboxed cwd tcs :
  preserves (sandboxed cwd) (run_tools cwd tcs).
Proof.
  induction tcs as [|tc tcs IH]; cbn [run_tools].
  - apply (preserves_ret _ (sandboxed_refl cwd)).
  - apply (preserves_bind _ (sandboxed_trans cwd)); [|done].
    apply run_tool_sandboxed.
Qed.

(** ** Nodes and the environment *)

Lemma evolves_refl cwd e : evolves cwd e e.
Proof. split; [apply sandboxed_refl|by repeat split]. Qed.

Lemma evolves_trans cwd e1 e2 e3 :
  evolves cwd e1 e2 → evolves cwd e2 e3 → evolves cwd e1 e3.
Proof.
  intros (S1 & I1 & O1 & P1 & B1) (S2 & I2 & O2 & P2 & B2).
  split; [by eapply sandboxed_trans|].
  split; [by etrans|]. split; [by etrans|]. split; [by etrans|].
  congruence.
Qed.

Lemma evolves_print cwd p : preserves (evolves cwd) (print p).
Proof.
  intros e. split; [apply sandboxed_refl|]. cbn.
  split; [done|]. split; [by apply prefix_app_r|done].
Qed.

Lemma evolves_input cwd : preserves (evolves cwd) input.
Proof.
  intros e. unfold input. destruct (stdin e) as [|l rest] eqn:Hin; cbn.
  - apply evolves_refl.
  - split; [apply sandboxed_refl|]. cbn.
    split; [rewrite Hin; by apply suffix_cons_r|done].
Qed.

Lemma evolves_ask cwd {A} (answer : Backend → nat → A) p :
  preserves (evolves cwd) (ask answer p).
Proof.
  intros e. split; [apply sandboxed_refl|]. cbn.
  split; [done|]. split; [done|]. split; [by apply prefix_app_r|done].
Qed.

Lemma evolves_on_store cwd {A} (m : M A) :
  preserves (sandboxed cwd) m → preserves (evolves cwd) (on_store m).
Proof.
  intros Hm e. unfold on_store. specialize (Hm (store e)).
  destruct (m (store e)) as [s' r]. split; [exact Hm|done].
Qed.

Lemma evolves_getitem cwd {A} key (field : option (option A)) :
  preserves (evolves cwd) (getitem key field).
Proof.
  destruct field; [apply (preserves_ret _ (evolves_refl cwd))
                  |apply (preserves_raise _ (evolves_refl cwd))].
Qed.

Lemma read_file_sandboxed cwd path_ :
  preserves (sandboxed cwd) (read_file cwd path_).
Proof. intros s. apply same_files_sandboxed, keeps_read_file. Qed.

#[export] Hint Resolve evolves_print evolves_input evolves_ask
  evolves_getitem : keeps.
#[export] Hint Resolve evolves_on_store read_file_sandboxed
  run_tools_sandboxed : keeps.

Ltac keep_env cwd :=
  keep (evolves_refl cwd) (evolves_trans cwd)
       ltac:(solve [auto with keeps]).

Lemma evolves_planner cwd st : preserves (evolves cwd) (planner_agent st).
Proof. unfold planner_agent. keep_env cwd. Qed.

Lemma evolves_architect cwd st :
  preserves (evolves cwd) (architect_agent st).
Proof. unfold architect_agent. keep_env cwd. Qed.

Lemma evolves_approval_planner cwd st :
  preserves (evolves cwd) (approval_planner_node st).
Proof. unfold approval_planner_node. keep_env cwd. Qed.

Lemma evolves_print_steps cwd i l :
  preserves (evolves cwd) (print_steps i l).
Proof.
  revert i. induction l as [|x l IH]; intros i; cbn [print_steps];
    keep_env cwd.
Qed.

#[export] Hint Resolve evolves_print_steps : keeps.

Lemma evolves_approval_architect cwd st :
  preserves (evolves cwd) (approval_architect_node st).
Proof. unfold approval_architect_node. keep_env cwd. Qed.

Lemma evolves_coder cwd st : preserves (evolves cwd) (coder_agent cwd st).
Proof. unfold coder_agent. keep_env cwd. Qed.

Lemma evolves_node cwd n st : preserves (evolves cwd) (node_fn cwd n st).
Proof.
  destruct n; cbn [node_fn];
    auto using evolves_planner, evolves_approval_planner,
      evolves_architect, evolves_approval_architect, evolves_coder.
  apply (preserves_ret _ (evolves_refl cwd)).
Qed.

Lemma evolves_step cwd n st : preserves (evolves cwd) (step cwd n st).
Proof.
  unfold step. keep_env cwd. apply evolves_node.
Qed.

Lemma evolves_steps cwd k : ∀ n st,
  preserves (evolves cwd) (steps cwd k n st).
Proof.
  induction k as [|k IH]; intros n st; cbn [steps].
  - apply (preserves_ret _ (evolves_refl cwd)).
  - destruct n; try (apply (preserves_bind _ (evolves_trans cwd));
      [apply evolves_step|intros c; apply IH]).
    apply (preserves_ret _ (evolves_refl cwd)).
Qed.

Lemma evolves_agent_invoke cwd limit input_ :
  preserves (evolves cwd) (agent_invoke cwd limit input_).
Proof.
  unfold agent_invoke. apply (preserves_bind _ (evolves_trans cwd)).
  - apply evolves_steps.
  - intros c. destruct (fst c);
      first [apply (preserves_ret _ (evolves_refl cwd))
            |apply (preserves_raise _ (evolves_refl cwd))].
Qed.

(** * Further properties of the file tools *)




(** X3: [read_file], [list_files] and [get_current_directory] leave the
    file system as it was, whatever they return or raise. *)
Theorem reading_tools_change_nothing cwd arg s :
  files (fst (read_file cwd arg s)) = files s
  ∧ files (fst (list_files cwd arg s)) = files s
  ∧ files (fst (get_current_directory cwd s)) = files s.
Proof.
  split; [apply keeps_read_file|].
  split; [apply keeps_list_files|apply keeps_get_current_directory].
Qed.









Lemma mkdir_parents_rev_existing rd s :
  lstat (files s) (rev rd) = Some Dir →
  files (fst (mkdir_parents_rev rd s)) = files s
  ∧ snd (mkdir_parents_rev rd s) = Ok tt.
Proof.
  intros Hd. destruct rd as [|c rp]; cbn [mkdir_parents_rev];
    rewrite os_mkdir_exists by (by eexists);
    rewrite is_dir_spec; cbn [files]; by rewrite (stat_dir _ _ Hd).
Qed.

(** X7: [init_project_root] succeeds when no component of the root path
    is in the way: the root is a directory afterwards, nothing but missing
    directories was added, and when the root already was a directory the
    file system is unchanged. *)
Theorem init_project_root_creates cwd s :
  well_formed (files s) →
  dirs_or_absent (files s) (PROJECT_ROOT cwd) →
  ∃ s', init_project_root cwd s = (s', Ok (str_abs (PROJECT_ROOT cwd)))
        ∧ lstat (files s') (PROJECT_ROOT cwd) = Some Dir
        ∧ grown (files s) (files s')
        ∧ (lstat (files s) (PROJECT_ROOT cwd) = Some Dir →
           files s' = files s).
Proof.
  intros Hwf Hok. unfold init_project_root, mkdir_parents, bind.
  destruct (mkdir_parents_rev_ok (rev (PROJECT_ROOT cwd)) s Hwf)
    as (s' & Hrun & Hdirs & Hgrown & _).
  { by rewrite rev_involutive. }
  rewrite rev_involutive in Hdirs.
  pose proof (mkdir_parents_rev_existing (rev (PROJECT_ROOT cwd)) s) as Hex.
  rewrite rev_involutive, Hrun in Hex. rewrite Hrun. unfold ret.
  exists s'. repeat split; try done.
  - by apply Hdirs.
  - intros Hd. by apply Hex.
Qed.

Lemma init_project_root_creates_witness :
  let s := mkStore (list_to_map [(["home"], Dir)]) [] in
  ∃ s', init_project_root home s = (s', Ok (str_abs (PROJECT_ROOT home)))
        ∧ lstat (files s') (PROJECT_ROOT home) = Some Dir
        ∧ grown (files s) (files s')
        ∧ (lstat (files s) (PROJECT_ROOT home) = Some Dir →
           files s' = files s).
Proof.
  apply (init_project_root_creates home
           (mkStore (list_to_map [(["home"], Dir)]) [])).
  - apply (bool_decide_unpack (well_formed _)). vm_compute. exact I.
  - apply dirs_or_absent_check. vm_compute. reflexivity.
Defined.

(** * Further properties of the workflow *)

Lemma coder_agent_cursor cwd st e e' upd :
  coder_agent cwd st e = (e', Ok upd) →
  ∃ cs, cursor st = Some cs
        ∧ ((total_steps cs ≤ current_step_idx cs
            ∧ upd = coder_update cs (Some "DONE"))
           ∨ (current_step_idx cs < total_steps cs
              ∧ ∃ s0, upd = coder_update (advance cs) s0)).
Proof.
  intros H. destruct (cursor st) as [cs|] eqn:Hc.
  2:{ destruct (cursor_none_raises cwd st e Hc) as (e1 & ex & Hr).
      congruence. }
  exists cs. split; [done|].
  unfold coder_agent in H. rewrite (cursor_bind st cs _ e Hc) in H.
  unfold total_steps.
  destruct (Z.leb_spec
              (Z.of_nat (length (implementation_steps (cs_task_plan cs))))
              (current_step_idx cs)) as [Hle|Hlt].
  { left. inversion H. done. }
  right. split; [done|].
  destruct (py_getitem _ _) as [task|]; [|discriminate].
  rewrite !bind_print in H. unfold bind at 1 in H.
  destruct (on_store _ _) as [e1 [content|ex]]; [|discriminate].
  unfold bind at 1 in H. unfold ask at 1 in H.
  unfold bind at 1 in H.
  destruct (on_store _ _) as [e2 [[]|ex]]; [|discriminate].
  destruct (raised _); destruct (Qlt_le_dec _ _);
    unfold bind, print, ret in H; cbn in H; inversion H; eauto.
Qed.

Lemma merge_empty st : merge st empty_state = st.
Proof. by destruct st. Qed.

Lemma next_inv n st n' :
  next n st = Ok n' →
  match n with
  | planner => n' = approval_planner
  | approval_planner =>
      (n' = architect ∧ get (planner_approved st) ≠ Some "edit")
      ∨ (n' = planner ∧ get (planner_approved st) = Some "edit")
  | architect => n' = approval_architect
  | approval_architect =>
      (n' = coder ∧ get (architect_approved st) ≠ Some "edit")
      ∨ (n' = architect ∧ get (architect_approved st) = Some "edit")
  | coder =>
      (n' = coder ∧ get (status st) ≠ Some "DONE")
      ∨ (n' = END ∧ get (status st) = Some "DONE")
  | END => n' = END
  end.
Proof.
  destruct n; cbn; unfold conditional, route_planner_approval,
    route_architect_approval, route_coder;
    try (by intros [= <-]);
    case_bool_decide; cbn; intros [= <-]; auto.
Qed.

Lemma stage_invariant_step cwd n st e e' n' st' :
  stage_invariant n st →
  step cwd n st e = (e', Ok (n', st')) →
  stage_invariant n' st'.
Proof.
  intros Hinv Hstep.
  destruct (step_inv _ _ _ _ _ _ _ Hstep) as (upd & Hnode & -> & Hnext).
  apply next_inv in Hnext.
  destruct n; cbn [node_fn] in Hnode; cbn [stage_invariant] in Hinv.
  - (* planner *)
    destruct (planner_agent_inv _ _ _ _ Hnode) as (m & _ & -> & _).
    subst n'. destruct Hinv as [H1 H2].
    split; [exact H1|]. split; [exact H2|]. by eexists.
  - (* approval_planner *)
    destruct Hinv as (H1 & H2 & [p Hp]).
    destruct (approval_planner_inv _ _ _ _ Hnode)
      as (_ & _ & [->|(l1 & l2 & rest & _ & _ & _ & ->)]);
      destruct Hnext as [[-> Ha]|[-> Ha]]; cbn in Ha;
      try (exfalso; congruence).
    + split; [split; [done|by exists p]|].
      split; [|exact H2].
      intros tp Htp. cbn in Htp. congruence.
    + split; [exact H1|exact H2].
  - (* architect *)
    destruct Hinv as ((Ha & Hp) & Ht & Hc).
    destruct (architect_agent_inv _ _ _ _ Hnode)
      as (pl & m & Hpl & _ & -> & _).
    subst n'.
    split; [split; [exact Ha|exact Hp]|].
    split; [|split; [exact Hc|by eexists]].
    intros tp [= <-]. cbn. by rewrite <- Hpl.
  - (* approval_architect *)
    destruct Hinv as ((Ha & Hp) & Ht & Hc & Htp).
    destruct (approval_architect_inv _ _ _ _ Hnode)
      as (_ & _ & tp & _ & [->|(l1 & l2 & rest & _ & _ & _ & ->)]);
      destruct Hnext as [[-> Hb]|[-> Hb]]; cbn in Hb;
      try (exfalso; congruence).
    + split; [split; [exact Ha|exact Hp]|].
      split; [exact Ht|]. split; [exact Htp|]. split; [done|].
      intros cs Hcs. cbn in Hcs. congruence.
    + split; [split; [exact Ha|exact Hp]|].
      split; [exact Ht|exact Hc].
  - (* coder *)
    destruct Hinv as ((Ha & Hp) & Ht & Htp & Hy & Hc).
    destruct (coder_agent_cursor _ _ _ _ _ Hnode) as (cs & Hcur & Hupd).
    assert (Hcs : 0 ≤ current_step_idx cs ≤ total_steps cs
                  ∧ get (task_plan st) = Some (cs_task_plan cs)).
    { unfold cursor in Hcur.
      destruct (get (coder_state st)) as [c|] eqn:Hc0.
      - inversion Hcur; subst. by apply Hc.
      - destruct (get (task_plan st)) as [tp|]; [|done].
        inversion Hcur; subst. cbn. unfold total_steps. cbn.
        split; [lia|done]. }
    assert (Hfin : ∀ cs' s0,
              (0 ≤ current_step_idx cs' ≤ total_steps cs'
               ∧ cs_task_plan cs' = cs_task_plan cs) →
              stage_invariant coder (merge st (coder_update cs' s0))).
    { intros cs' s0 [Hb He].
      split; [split; [exact Ha|exact Hp]|].
      split; [exact Ht|]. split; [exact Htp|]. split; [exact Hy|].
      intros c [= <-]. split; [exact Hb|].
      rewrite He. by destruct Hcs. }
    assert (Hres : stage_invariant coder (merge st upd)).
    { destruct Hupd as [[Hle ->]|[Hlt [s0 ->]]]; apply Hfin.
      - by destruct Hcs.
      - unfold total_steps in *. cbn. split; [lia|done]. }
    by destruct Hnext as [[-> _]|[-> _]].
  - (* END *)
    unfold ret in Hnode. inversion Hnode; subst.
    by rewrite merge_empty.
Qed.

Lemma reachable_stage_invariant cwd n st :
  reachable cwd n st → stage_invariant n st.
Proof.
  induction 1 as [u|n st e e' n' st' _ IH Hstep].
  - by split.
  - by eapply stage_invariant_step.
Qed.

(** X8: in every configuration a run can reach, the step cursor is
    within bounds, 0 <= index <= number of steps, and works on the task
    plan of the state. *)
Theorem cursor_stays_in_bounds cwd n st cs :
  reachable cwd n st →
  get (coder_state st) = Some cs →
  0 ≤ current_step_idx cs ≤ total_steps cs
  ∧ get (task_plan st) = Some (cs_task_plan cs).
Proof.
  intros Hreach Hcs. pose proof (reachable_stage_invariant _ _ _ Hreach) as H.
  destruct n; cbn in H;
    try (destruct H as (_ & _ & _ & _ & Hc); by apply Hc);
    [destruct H as (_ & Hn) | destruct H as (_ & Hn & _)
    |destruct H as (_ & _ & Hn) | destruct H as (_ & _ & Hn & _)];
    congruence.
Qed.

(** X9: in every configuration a run can reach, a task plan in the state
    was built from the plan of the state (which it carries as its extra
    attribute), and the human has approved that plan; when the coding
    stage runs the task plan has been approved too. *)
Theorem task_plan_from_approved_plan cwd n st tp :
  reachable cwd n st →
  get (task_plan st) = Some tp →
  extra_plan tp = get (plan st)
  ∧ get (planner_approved st) = Some "yes"
  ∧ (n = coder ∨ n = END → get (architect_approved st) = Some "yes").
Proof.
  intros Hreach Htp.
  pose proof (reachable_stage_invariant _ _ _ Hreach) as H.
  destruct n; cbn in H.
  - destruct H as [Hn _]. congruence.
  - destruct H as [Hn _]. congruence.
  - destruct H as ((Ha & _) & Ht & _). repeat split; auto.
    by intros [|].
  - destruct H as ((Ha & _) & Ht & _). repeat split; auto.
    by intros [|].
  - destruct H as ((Ha & _) & Ht & _ & Hy & _). repeat split; auto.
  - destruct H as ((Ha & _) & Ht & _ & Hy & _). repeat split; auto.
Qed.

Lemma steps_reachable cwd k n st e e' n' st' :
  reachable cwd n st →
  steps cwd k n st e = (e', Ok (n', st')) →
  reachable cwd n' st'.
Proof.
  revert n st e. induction k as [|k IH]; intros n st e Hr H.
  - cbn in H. unfold ret in H. by inversion H; subst.
  - destruct (decide (n = END)) as [->|Hn].
    + cbn in H. unfold ret in H. by inversion H; subst.
    + rewrite steps_unfold in H by done.
      destruct (step cwd n st e) as [e1 [[n1 st1]|ex]] eqn:Hs;
        [|discriminate].
      eapply IH; [|exact H]. by eapply reach_step.
Qed.

Lemma coded_state_reachable : reachable home coder coded_state.
Proof.
  eapply (steps_reachable home 5 planner (initial_state "a note taking app")
            (sample_env quick_call ["yes"; "yes"])).
  - apply reach_init.
  - vm_compute. reflexivity.
Qed.

Lemma cursor_stays_in_bounds_witness :
  ∃ cs, get (coder_state coded_state) = Some cs
        ∧ 0 ≤ current_step_idx cs ≤ total_steps cs
        ∧ get (task_plan coded_state) = Some (cs_task_plan cs).
Proof.
  eexists. split; [reflexivity|].
  apply (cursor_stays_in_bounds home coder coded_state).
  - apply coded_state_reachable.
  - reflexivity.
Defined.

Lemma task_plan_from_approved_plan_witness :
  extra_plan two_steps = get (plan coded_state)
  ∧ get (planner_approved coded_state) = Some "yes"
  ∧ (coder = coder ∨ coder = END →
     get (architect_approved coded_state) = Some "yes").
Proof.
  apply (task_plan_from_approved_plan home coder coded_state two_steps).
  - apply coded_state_reachable.
  - reflexivity.
Defined.

Lemma reachable_END cwd n st :
  reachable cwd n st → n = END →
  get (status st) = Some "DONE" ∧ is_Some (get (coder_state st)).
Proof.
  induction 1 as [u|n st e e' n' st' Hr IH Hstep]; [discriminate|].
  intros ->.
  destruct (step_inv _ _ _ _ _ _ _ Hstep) as (upd & Hnode & -> & Hnext).
  apply next_inv in Hnext.
  destruct n; try discriminate;
    try (destruct Hnext as [[? _]|[? _]]; discriminate).
  - destruct Hnext as [[? _]|[_ Hd]]; [discriminate|].
    split; [exact Hd|].
    destruct (coder_agent_inv _ _ _ _ _ Hnode) as (cs & s & ->).
    by eexists.
  - cbn in Hnode. unfold ret in Hnode. inversion Hnode; subst.
    rewrite merge_empty. by apply IH.
Qed.

Lemma step_user_prompt cwd n st e e' n' st' :
  step cwd n st e = (e', Ok (n', st')) →
  get (user_prompt st') = get (user_prompt st).
Proof.
  intros Hstep.
  destruct (step_inv _ _ _ _ _ _ _ Hstep) as (upd & Hnode & -> & _).
  destruct n; cbn [node_fn] in Hnode.
  - by destruct (planner_agent_inv _ _ _ _ Hnode) as (m & _ & -> & _).
  - by destruct (approval_planner_inv _ _ _ _ Hnode)
      as (_ & _ & [->|(l1 & l2 & rest & _ & _ & _ & ->)]).
  - by destruct (architect_agent_inv _ _ _ _ Hnode)
      as (pl & m & _ & _ & -> & _).
  - by destruct (approval_architect_inv _ _ _ _ Hnode)
      as (_ & _ & tp & _ & [->|(l1 & l2 & rest & _ & _ & _ & ->)]).
  - by destruct (coder_agent_inv _ _ _ _ _ Hnode) as (cs & s & ->).
  - unfold ret in Hnode. inversion Hnode; subst. by rewrite merge_empty.
Qed.

Lemma steps_user_prompt cwd k n st e e' n' st' :
  steps cwd k n st e = (e', Ok (n', st')) →
  get (user_prompt st') = get (user_prompt st).
Proof.
  revert n st e. induction k as [|k IH]; intros n st e H.
  - cbn in H. unfold ret in H. by inversion H; subst.
  - destruct (decide (n = END)) as [->|Hn].
    + cbn in H. unfold ret in H. by inversion H; subst.
    + rewrite steps_unfold in H by done.
      destruct (step cwd n st e) as [e1 [[n1 st1]|ex]] eqn:Hs;
        [|discriminate].
      rewrite (IH _ _ _ H). by eapply step_user_prompt.
Qed.

Lemma agent_invoke_inv cwd limit st e e' st' :
  agent_invoke cwd limit st e = (e', Ok st') →
  steps cwd limit planner st e = (e', Ok (END, st')).
Proof.
  unfold agent_invoke, bind.
  destruct (steps cwd limit planner st e) as [e1 [[n1 st1]|ex]];
    [|discriminate].
  destruct n1; cbn; unfold ret, raise; intros H; inversion H; by subst.
Qed.

(** X10: what a completed run returns.  When [agent.invoke] on a request
    returns a state, that state has status DONE, still holds the request,
    holds a plan and a task plan built from it, both approved, and a
    cursor on that task plan whose index is between 0 and the number of
    steps. *)
Theorem completed_run_state cwd limit u e e' st :
  agent_invoke cwd limit (initial_state u) e = (e', Ok st) →
  get (status st) = Some "DONE"
  ∧ get (user_prompt st) = Some u
  ∧ get (planner_approved st) = Some "yes"
  ∧ get (architect_approved st) = Some "yes"
  ∧ ∃ cs, get (coder_state st) = Some cs
          ∧ 0 ≤ current_step_idx cs ≤ total_steps cs
          ∧ get (task_plan st) = Some (cs_task_plan cs)
          ∧ extra_plan (cs_task_plan cs) = get (plan st)
          ∧ is_Some (get (plan st)).
Proof.
  intros H%agent_invoke_inv.
  pose proof (steps_user_prompt _ _ _ _ _ _ _ _ H) as Hu.
  assert (Hr : reachable cwd END st).
  { eapply steps_reachable; [apply reach_init|exact H]. }
  destruct (reachable_END _ _ _ Hr eq_refl) as [Hd [cs Hcs]].
  destruct (reachable_stage_invariant _ _ _ Hr)
    as ((Ha & Hp) & Ht & _ & Hy & Hc).
  destruct (Hc cs Hcs) as [Hb Htp].
  split; [exact Hd|]. split; [exact Hu|]. split; [exact Ha|].
  split; [exact Hy|]. exists cs.
  split; [exact Hcs|]. split; [exact Hb|]. split; [exact Htp|].
  split; [by apply Ht|exact Hp].
Qed.

Lemma completed_run_state_witness :
  ∃ e' st,
    agent_invoke home 25 (initial_state "a note taking app")
      (sample_env quick_call ["yes"; "yes"]) = (e', Ok st)
    ∧ get (status st) = Some "DONE"
    ∧ get (user_prompt st) = Some "a note taking app"
    ∧ get (planner_approved st) = Some "yes"
    ∧ get (architect_approved st) = Some "yes"
    ∧ ∃ cs, get (coder_state st) = Some cs
            ∧ 0 ≤ current_step_idx cs ≤ total_steps cs
            ∧ get (task_plan st) = Some (cs_task_plan cs)
            ∧ extra_plan (cs_task_plan cs) = get (plan st)
            ∧ is_Some (get (plan st)).
Proof.
  eexists _, _. split; [vm_compute; reflexivity|].
  eapply (completed_run_state home 25 "a note taking app"
            (sample_env quick_call ["yes"; "yes"])).
  vm_compute. reflexivity.
Defined.

(** X11: the edges of the graph.  Following the edge out of a node never
    fails, whatever the state, and leads from the planner to the plan
    review, from the plan review to the architect or back to the planner,
    from the architect to the task-plan review, from the task-plan review
    to the coder or back to the architect, and from the coder to the coder
    or to the end; the end is entered from the coder only. *)
Theorem edges_of_the_graph n st :
  ∃ n', next n st = Ok n'
        ∧ match n with
          | planner => n' = approval_planner
          | approval_planner => n' = architect ∨ n' = planner
          | architect => n' = approval_architect
          | approval_architect => n' = coder ∨ n' = architect
          | coder => n' = coder ∨ n' = END
          | END => n' = END
          end
        ∧ (n' = END → n = coder ∨ n = END).
Proof.
  destruct n; cbn; unfold conditional, route_planner_approval,
    route_architect_approval, route_coder;
    try case_bool_decide; cbn; eexists; (split; [reflexivity|]);
    split; auto; discriminate.
Qed.

(** ** How a node can fail *)

Lemma planner_agent_raises st e e' ex :
  planner_agent st e = (e', Raise ex) →
  structured_plan (backend e) (length (sent e)) = Raise ex
  ∨ (structured_plan (backend e) (length (sent e)) = Ok None
     ∧ ex = ValueError "Planner did not return a valid response.").
Proof.
  unfold planner_agent, bind, ask, lift_res. cbn.
  destruct (structured_plan (backend e) (length (sent e))) as [[m|]|x];
    cbn; unfold raise; intros Heq; inversion Heq; subst; auto.
Qed.

Lemma architect_agent_raises st e e' ex pl :
  get (plan st) = Some pl →
  architect_agent st e = (e', Raise ex) →
  structured_task_plan (backend e) (length (sent e)) = Raise ex
  ∨ (structured_task_plan (backend e) (length (sent e)) = Ok None
     ∧ ex = ValueError "Architect did not return a valid response.").
Proof.
  unfold architect_agent, bind, getitem, get.
  destruct (plan st) as [[p|]|]; try discriminate. intros _.
  unfold ask, lift_res; cbn.
  destruct (structured_task_plan (backend e) (length (sent e)))
    as [[m|]|x]; cbn; unfold raise; intros Heq; inversion Heq; subst; auto.
Qed.

Lemma input_raises e e' ex :
  input e = (e', Raise ex) → ex = EOFError ∧ stdin e = [] ∧ e' = e.
Proof.
  unfold input. destruct (stdin e); intros H; inversion H; by subst.
Qed.

Lemma approval_planner_starved st e :
  starved e → snd (approval_planner_node st e) = Raise EOFError.
Proof.
  intros Hs. unfold approval_planner_node, bind, print, input; cbn.
  destruct Hs as [->|[l1 [-> He]]]; cbn; [done|].
  by rewrite bool_decide_eq_true_2 by done.
Qed.

Lemma approval_planner_raises st e ex :
  snd (approval_planner_node st e) = Raise ex →
  ex = EOFError ∧ starved e.
Proof.
  intros H. destruct (stdin e) as [|l1 rest1] eqn:Hin.
  { rewrite approval_planner_starved in H by by left.
    split; [congruence|by left]. }
  destruct (decide (lower (strip l1) = "edit")) as [He|Hne].
  - destruct rest1 as [|l2 rest].
    { rewrite approval_planner_starved in H by (right; eauto).
      split; [congruence|right; eauto]. }
    rewrite (approval_planner_edit _ _ _ _ _ Hin He) in H.
    by destruct (truthy (Some (strip l2))).
  - by rewrite (approval_planner_not_edit _ _ _ _ Hin Hne) in H.
Qed.

Lemma approval_architect_starved st tp e :
  get (task_plan st) = Some tp →
  starved e → snd (approval_architect_node st e) = Raise EOFError.
Proof.
  intros Htp Hs. unfold approval_architect_node. rewrite Htp.
  destruct (approval_architect_head st tp e Htp) as [out Hout].
  rewrite Hout. unfold bind, print, input; cbn.
  destruct Hs as [->|[l1 [-> He]]]; cbn; [done|].
  by rewrite bool_decide_eq_true_2 by done.
Qed.

Lemma approval_architect_raises st tp e ex :
  get (task_plan st) = Some tp →
  snd (approval_architect_node st e) = Raise ex →
  ex = EOFError ∧ starved e.
Proof.
  intros Htp H. destruct (stdin e) as [|l1 rest1] eqn:Hin.
  { rewrite (approval_architect_starved st tp) in H by (done || by left).
    split; [congruence|by left]. }
  destruct (decide (lower (strip l1) = "edit")) as [He|Hne].
  - destruct rest1 as [|l2 rest].
    { rewrite (approval_architect_starved st tp) in H
        by (done || (right; eauto)).
      split; [congruence|right; eauto]. }
    destruct (approval_architect_edit _ _ _ _ _ _ Htp Hin He) as [out Ho].
    by rewrite Ho in H.
  - destruct (approval_architect_not_edit _ _ _ _ _ Htp Hin Hne)
      as [out Ho].
    by rewrite Ho in H.
Qed.

(** An invocation that processes a step whose initial read raises: the
    backend is not asked. *)
Lemma coder_agent_read_raises_env cwd st cs e task s1 ex :
  cursor st = Some cs →
  0 ≤ current_step_idx cs < total_steps cs →
  implementation_steps (cs_task_plan cs) !! Z.to_nat (current_step_idx cs)
    = Some task →
  read_file cwd (filepath task) (store e) = (s1, Raise ex) →
  coder_agent cwd st e =
    (mkEnv s1 (stdin e)
       (stdout e
        ++ [PrintStep (current_step_idx cs + 1) (total_steps cs)
              (filepath task);
            PrintTask (str_take 120 (task_description task))])
       (backend e) (sent e),
     Raise ex).
Proof.
  intros Hc Hrange Htask Hread. unfold coder_agent.
  rewrite (cursor_bind st cs _ e Hc). unfold total_steps in *.
  destruct (Z.leb_spec (Z.of_nat (length (implementation_steps
                                            (cs_task_plan cs))))
                       (current_step_idx cs)); [lia|].
  destruct (py_getitem_in_range _ _ Hrange) as [x [Hx Hx']].
  rewrite Hx. assert (x = task) as -> by congruence.
  rewrite !bind_print. unfold bind at 1. unfold on_store at 1.
  cbn [store]. rewrite Hread. cbn. by rewrite <- app_assoc.
Qed.

Lemma coder_agent_raises cwd st cs e e' ex :
  cursor st = Some cs →
  0 ≤ current_step_idx cs →
  coder_agent cwd st e = (e', Raise ex) →
  ∃ task,
    implementation_steps (cs_task_plan cs) !! Z.to_nat (current_step_idx cs)
    = Some task
    ∧ snd (read_file cwd (filepath task) (store e)) = Raise ex
    ∧ sent e' = sent e.
Proof.
  intros Hc H0 H. unfold coder_agent in H.
  rewrite (cursor_bind st cs _ e Hc) in H.
  destruct (Z.leb_spec
              (Z.of_nat (length (implementation_steps (cs_task_plan cs))))
              (current_step_idx cs)) as [Hle|Hlt].
  { inversion H. }
  destruct (py_getitem_in_range (implementation_steps (cs_task_plan cs))
              (current_step_idx cs)) as [task [Hx Hx']]; [lia|].
  rewrite Hx in H. exists task. split; [exact Hx'|].
  rewrite !bind_print in H. unfold bind at 1 in H.
  unfold on_store at 1 in H. cbn [store] in H.
  destruct (read_file cwd (filepath task) (store e)) as [s1 [content|x]].
  2:{ inversion H; subst. by split. }
  exfalso. unfold bind at 1 in H. unfold ask at 1 in H.
  unfold bind at 1 in H.
  destruct (on_store _ _) as [e2 [[]|x]] eqn:Hos.
  2:{ unfold on_store in Hos. cbn [store] in Hos.
      pose proof (run_tools_ok cwd
                    (tool_calls (tool_run (backend e) (length (sent e))))
                    s1) as Hok.
      destruct (run_tools _ _ _) as [s2 r2]. cbn in Hok.
      inversion Hos; subst. discriminate. }
  destruct (raised _); destruct (Qlt_le_dec _ _);
    unfold bind, print, ret in H; cbn in H; inversion H.
Qed.

(** X12: the only ways a stage of a run can fail.  In a configuration a
    run can reach, a node that raises does so for one of these reasons:
    the planner or the architect because the backend raised that
    exception or gave no answer (a [ValueError]); a review because
    standard input ended ([EOFError]); the coder because reading the file
    of the current step raised it, in which case the backend was not
    asked.  The lookups of the plan, of the task plan and of the current
    step never fail. *)
Theorem causes_of_failure cwd n st e e' ex :
  reachable cwd n st →
  node_fn cwd n st e = (e', Raise ex) →
  match n with
  | planner =>
      structured_plan (backend e) (length (sent e)) = Raise ex
      ∨ (structured_plan (backend e) (length (sent e)) = Ok None
         ∧ ex = ValueError "Planner did not return a valid response.")
  | architect =>
      structured_task_plan (backend e) (length (sent e)) = Raise ex
      ∨ (structured_task_plan (backend e) (length (sent e)) = Ok None
         ∧ ex = ValueError "Architect did not return a valid response.")
  | approval_planner | approval_architect => ex = EOFError
  | coder =>
      ∃ cs task,
        cursor st = Some cs
        ∧ implementation_steps (cs_task_plan cs)
            !! Z.to_nat (current_step_idx cs) = Some task
        ∧ snd (read_file cwd (filepath task) (store e)) = Raise ex
        ∧ sent e' = sent e
  | END => False
  end.
Proof.
  intros Hr H. pose proof (reachable_stage_invariant _ _ _ Hr) as Hinv.
  destruct n; cbn [node_fn] in H; cbn [stage_invariant] in Hinv.
  - by eapply planner_agent_raises.
  - apply (approval_planner_raises st e). by rewrite H.
  - destruct Hinv as ((_ & [pl Hpl]) & _). by eapply architect_agent_raises.
  - destruct Hinv as (_ & _ & _ & [tp Htp]).
    apply (approval_architect_raises st tp e); [done|]. by rewrite H.
  - destruct Hinv as (_ & _ & [tp Htp] & _ & Hc).
    assert (∃ cs, cursor st = Some cs ∧ 0 ≤ current_step_idx cs)
      as (cs & Hcur & H0).
    { unfold cursor. destruct (get (coder_state st)) as [c|] eqn:Hc0.
      - exists c. split; [done|]. by destruct (Hc c Hc0) as [[? _] _].
      - rewrite Htp. eexists. split; [done|]. cbn. lia. }
    destruct (coder_agent_raises _ _ _ _ _ _ Hcur H0 H) as (task & ? & ? & ?).
    by exists cs, task.
  - unfold ret in H. discriminate.
Qed.

Lemma causes_of_failure_witness :
  ∃ e',
    node_fn home approval_planner review_state (sample_env quick_call [])
    = (e', Raise EOFError)
    ∧ EOFError = EOFError.
Proof.
  eexists. split; [vm_compute; reflexivity|].
  eapply (causes_of_failure home approval_planner review_state
            (sample_env quick_call [])).
  - apply review_state_reachable.
  - vm_compute. reflexivity.
Defined.

(** X13: a step whose file resolves outside the workspace root ends the
    run.  When the cursor is on such a step, the coder raises the
    path-escape error without asking the backend and without touching the
    store, and so does every run of super-steps that starts there. *)
Theorem escaping_step_ends_run cwd st cs e task p r :
  cursor st = Some cs →
  0 ≤ current_step_idx cs < total_steps cs →
  implementation_steps (cs_task_plan cs) !! Z.to_nat (current_step_idx cs)
    = Some task →
  resolve (files (store e)) (joinpath (PROJECT_ROOT cwd) (filepath task))
    = Ok p →
  resolve (files (store e)) (PROJECT_ROOT cwd) = Ok r →
  ¬ r `prefix_of` p →
  ∃ e', coder_agent cwd st e = (e', Raise escape_error)
        ∧ store e' = store e ∧ sent e' = sent e ∧ stdin e' = stdin e
        ∧ ∀ k, steps cwd (S k) coder st e = (e', Raise escape_error).
Proof.
  intros Hc Hrange Htask Hp Hr Hout.
  assert (Hread : read_file cwd (filepath task) (store e)
                  = (store e, Raise escape_error)).
  { apply escape_raises.
    rewrite (safe_path_spec cwd (filepath task) (store e) p r Hp Hr).
    by rewrite decide_False. }
  pose proof (coder_agent_read_raises_env cwd st cs e task _ _
                Hc Hrange Htask Hread) as Hca.
  eexists. split; [exact Hca|].
  split; [reflexivity|]. split; [reflexivity|]. split; [reflexivity|].
  intros k. rewrite steps_unfold by done.
  unfold step, bind. cbn [node_fn]. by rewrite Hca.
Qed.

Lemma escaping_step_ends_run_witness :
  ∃ e', coder_agent home
          (coding_state
             (mkTaskPlan [mkTask "../notes.txt" "leave the workspace"]
                         (Some sample_plan)))
          (sample_env quick_call []) = (e', Raise escape_error)
        ∧ store e' = store (sample_env quick_call [])
        ∧ sent e' = sent (sample_env quick_call [])
        ∧ stdin e' = stdin (sample_env quick_call [])
        ∧ ∀ k, steps home (S k) coder
                 (coding_state
                    (mkTaskPlan [mkTask "../notes.txt" "leave the workspace"]
                                (Some sample_plan)))
                 (sample_env quick_call []) = (e', Raise escape_error).
Proof.
  eapply (escaping_step_ends_run home _ _ (sample_env quick_call [])
            (mkTask "../notes.txt" "leave the workspace")).
  - reflexivity.
  - unfold total_steps. cbn. lia.
  - reflexivity.
  - vm_compute. reflexivity.
  - vm_compute. reflexivity.
  - apply (bool_decide_unpack (¬ _)). vm_compute. exact I.
Defined.



(** X15: a planner without an answer ends the run.  When the backend
    gives no structured answer to the first call of a run, the run raises
    the planner's [ValueError] after that one call, having printed
    nothing, read no input and left the store alone. *)
Theorem silent_planner_ends_run cwd k st e :
  structured_plan (backend e) (length (sent e)) = Ok None →
  agent_invoke cwd (S k) st e =
    (mkEnv (store e) (stdin e) (stdout e) (backend e)
           (sent e ++ [planner_request st]),
     Raise (ValueError "Planner did not return a valid response.")).
Proof.
  intros H. unfold agent_invoke. unfold bind at 1.
  rewrite steps_unfold by done.
  unfold step. unfold bind at 1. cbn [node_fn].
  unfold planner_agent, bind, ask, lift_res. cbn. by rewrite H.
Qed.

Lemma silent_planner_ends_run_witness :
  agent_invoke home 25 (initial_state "a note taking app")
    (mkEnv (mkStore sample_fs []) ["yes"] [] mute_backend []) =
    (mkEnv (mkStore sample_fs []) ["yes"] [] mute_backend
           ([] ++ [planner_request (initial_state "a note taking app")]),
     Raise (ValueError "Planner did not return a valid response.")).
Proof.
  apply (silent_planner_ends_run home 24
           (initial_state "a note taking app")
           (mkEnv (mkStore sample_fs []) ["yes"] [] mute_backend [])).
  reflexivity.
Defined.

(** * Further properties of the main loop *)

Lemma bind_say {A} c (k : T A) s :
  bind (say c) (λ _, k) s = k (mkSession (env s) (console s ++ [c])).
Proof. reflexivity. Qed.

Lemma display_graph_ok cwd draw s :
  ∃ s', display_graph cwd draw s = (s', Ok tt)
        ∧ stdin (env s') = stdin (env s)
        ∧ sent (env s') = sent (env s)
        ∧ backend (env s') = backend (env s).
Proof.
  unfold display_graph. rewrite bind_say. unfold bind at 1.
  destruct (draw _) as [img| |ex]; cbn [env console].
  - unfold in_env, on_store. cbn [env store].
    destruct (open_write _ _ _) as [s1 [[]|ex]]; cbn; eexists; by split.
  - cbn. eexists; by split.
  - cbn. eexists; by split.
Qed.

Lemma run_request_ok cwd limit u s :
  ∃ s', run_request cwd limit u s = (s', Ok tt)
        ∧ evolves cwd (env s) (env s').
Proof.
  unfold run_request, in_env.
  pose proof (evolves_agent_invoke cwd limit (initial_state u) (env s))
    as Hev.
  destruct (agent_invoke cwd limit (initial_state u) (env s))
    as [e' [st|ex]]; cbn in *; eexists; by split.
Qed.

Lemma main_loop_unfold cwd limit draw fuel s :
  main_loop cwd limit draw (S fuel) s =
  let s0 := mkSession (env s) (console s ++ [SayUserPrompt]) in
  match stdin (env s) with
  | [] => (s0, Raise EOFError)
  | line :: rest =>
      let s1 := mkSession (mkEnv (store (env s)) rest (stdout (env s))
                             (backend (env s)) (sent (env s)))
                          (console s ++ [SayUserPrompt]) in
      if bool_decide (lower (strip line) ∈ ["exit"; "end"; "quit"]) then
        (mkSession (env s1) (console s1 ++ [SayGoodbye]), Ok (Some tt))
      else if bool_decide (lower (strip line) = "graph") then
        main_loop cwd limit draw fuel (fst (display_graph cwd draw s1))
      else
        main_loop cwd limit draw fuel
          (fst (run_request cwd limit (strip line) s1))
  end.
Proof.
  cbn [main_loop]. rewrite bind_say. unfold bind at 1.
  unfold in_env, input. cbn [env console].
  destruct (stdin (env s)) as [|line rest]; [by destruct s as [[]]|].
  cbn zeta. case_bool_decide; [reflexivity|].
  case_bool_decide.
  - unfold bind at 1.
    destruct (display_graph_ok cwd draw
      (mkSession (mkEnv (store (env s)) rest (stdout (env s))
                    (backend (env s)) (sent (env s)))
                 (console s ++ [SayUserPrompt]))) as (s2 & -> & _).
    reflexivity.
  - unfold bind at 1.
    destruct (run_request_ok cwd limit (strip line)
      (mkSession (mkEnv (store (env s)) rest (stdout (env s))
                    (backend (env s)) (sent (env s)))
                 (console s ++ [SayUserPrompt]))) as (s2 & -> & _).
    reflexivity.
Qed.

Lemma main_loop_result cwd limit draw fuel : ∀ s,
  (length (stdin (env s)) < fuel)%nat →
  ∃ s', main_loop cwd limit draw fuel s = (s', Ok (Some tt))
        ∨ (main_loop cwd limit draw fuel s = (s', Raise EOFError)
           ∧ stdin (env s') = []).
Proof.
  induction fuel as [|fuel IH]; intros s Hlen; [lia|].
  rewrite main_loop_unfold. cbn zeta.
  destruct (stdin (env s)) as [|line rest] eqn:Hin.
  { eexists. right. by split. }
  cbn [length] in Hlen.
  case_bool_decide; [eexists; by left|].
  case_bool_decide.
  - destruct (display_graph_ok cwd draw
      (mkSession (mkEnv (store (env s)) rest (stdout (env s))
                    (backend (env s)) (sent (env s)))
                 (console s ++ [SayUserPrompt]))) as (s2 & -> & Hs2 & _).
    cbn [fst]. apply IH. rewrite Hs2. cbn. lia.
  - destruct (run_request_ok cwd limit (strip line)
      (mkSession (mkEnv (store (env s)) rest (stdout (env s))
                    (backend (env s)) (sent (env s)))
                 (console s ++ [SayUserPrompt]))) as (s2 & -> & Hev).
    cbn [fst]. apply IH. destruct Hev as (_ & Hsuf & _). cbn in Hsuf.
    apply suffix_length in Hsuf. lia.
Qed.



Lemma main_unfold cwd limit draw s :
  main cwd limit draw s =
  match init_project_root cwd (store (env s)) with
  | (s1, Raise ex) =>
      (mkSession (mkEnv s1 (stdin (env s)) (stdout (env s))
                    (backend (env s)) (sent (env s))) (console s),
       Raise ex)
  | (s1, Ok _) =>
      main_loop cwd limit draw (S (length (stdin (env s))))
        (mkSession (mkEnv s1 (stdin (env s)) (stdout (env s))
                      (backend (env s)) (sent (env s)))
                   (console s ++ [SayReady; SayHowToQuit; SayWhat]))
  end.
Proof.
  unfold main. unfold bind at 1. unfold in_env, on_store.
  destruct (init_project_root cwd (store (env s))) as [s1 [root|ex]];
    [|reflexivity].
  rewrite !bind_say. cbn [env console stdin]. by rewrite <- !app_assoc.
Qed.

(** X17: how [main] ends.  [main] ends by the sentinel command, or with
    [EOFError] when standard input is used up, or with the exception that
    creating the workspace root raised; the loop it runs is never cut
    short by the fuel of the model. *)
Theorem main_ends cwd limit draw s :
  snd (main cwd limit draw s) = Ok (Some tt)
  ∨ (snd (main cwd limit draw s) = Raise EOFError
     ∧ stdin (env (fst (main cwd limit draw s))) = [])
  ∨ (∃ ex, snd (init_project_root cwd (store (env s))) = Raise ex
           ∧ snd (main cwd limit draw s) = Raise ex).
Proof.
  rewrite main_unfold.
  destruct (init_project_root cwd (store (env s))) as [s1 [root|ex]].
  2:{ right. right. exists ex. by split. }
  match goal with
  | |- context [main_loop cwd limit draw ?f ?s0] =>
      destruct (main_loop_result cwd limit draw f s0) as [s' [Hm|[Hm Hs']]];
        [cbn; lia| |]
  end.
  - left. by rewrite Hm.
  - right. left. by rewrite Hm.
Qed.

(** X18: the sentinel command.  A line that is exit, end or quit once its
    surrounding spaces are removed and its letters lowered ends the loop:
    the line is consumed, the prompt and the farewell are printed, and the
    store, the backend's history and what the nodes printed are as they
    were. *)
Theorem sentinel_ends_session cwd limit draw fuel s line rest :
  stdin (env s) = line :: rest →
  lower (strip line) ∈ ["exit"; "end"; "quit"] →
  main_loop cwd limit draw (S fuel) s =
    (mkSession (mkEnv (store (env s)) rest (stdout (env s))
                  (backend (env s)) (sent (env s)))
               (console s ++ [SayUserPrompt; SayGoodbye]),
     Ok (Some tt)).
Proof.
  intros Hin Hs. rewrite main_loop_unfold. cbn zeta. rewrite Hin.
  rewrite bool_decide_eq_true_2 by done. cbn. by rewrite <- app_assoc.
Qed.

Lemma sentinel_ends_session_witness :
  main_loop home 25 (λ _, DrawImportError) 1
    (mkSession (sample_env quick_call ["  Quit "; "a note taking app"]) [])
  = (mkSession (mkEnv (mkStore sample_fs []) ["a note taking app"] []
                  (constant_backend quick_call) [])
               ([] ++ [SayUserPrompt; SayGoodbye]),
     Ok (Some tt)).
Proof.
  apply (sentinel_ends_session home 25 (λ _, DrawImportError) 0
           (mkSession (sample_env quick_call
                         ["  Quit "; "a note taking app"]) [])
           "  Quit " ["a note taking app"]).
  - reflexivity.
  - vm_compute. apply list_elem_of_In. vm_compute. tauto.
Defined.

(** X19: drawing the graph never fails and stays out of the run.
    [display_graph] always returns: a drawing that cannot be made or an
    image that cannot be written is reported on the console.  It reads no
    input and sends nothing to the backend, and the last line it prints is
    the rule. *)
Theorem display_graph_reports cwd draw s :
  ∃ s', display_graph cwd draw s = (s', Ok tt)
        ∧ stdin (env s') = stdin (env s)
        ∧ stdout (env s') = stdout (env s)
        ∧ sent (env s') = sent (env s)
        ∧ ∃ mid, console s' = console s ++ [SayGraphHeader; mid; SayRule]
                 ∧ (mid = SayGraphSaved → ∃ img,
                      draw (S (length (console s))) = DrawPng img).
Proof.
  unfold display_graph. rewrite bind_say. unfold bind at 1.
  cbn [env console]. rewrite length_app. cbn [length].
  rewrite Nat.add_1_r.
  destruct (draw _) as [img| |ex]; cbn [env console].
  - unfold in_env, on_store. cbn [env store].
    destruct (open_write _ _ _) as [s1 [[]|ex]]; cbn; eexists;
      (split; [reflexivity|]); cbn; repeat (split; [reflexivity|]);
      eexists; (split; [by rewrite <- !app_assoc|]); [eauto|discriminate].
  - cbn. eexists. split; [reflexivity|]. cbn.
    repeat (split; [reflexivity|]).
    eexists; (split; [by rewrite <- !app_assoc|]); discriminate.
  - cbn. eexists. split; [reflexivity|]. cbn.
    repeat (split; [reflexivity|]).
    eexists; (split; [by rewrite <- !app_assoc|]); discriminate.
Qed.

(** * Further properties of the shell tool and of a run *)






(** X22: the cursor moves one step at a time.  A super-step of the coder
    that returns leaves a cursor on the same task plan; while steps remain
    its index has grown by exactly one, and once they are exhausted the
    cursor is as it was and the run goes to the end. *)
Theorem cursor_advances_by_one cwd st cs e e' n' st' :
  cursor st = Some cs →
  step cwd coder st e = (e', Ok (n', st')) →
  ∃ cs', get (coder_state st') = Some cs'
         ∧ cs_task_plan cs' = cs_task_plan cs
         ∧ ((current_step_idx cs < total_steps cs
             ∧ current_step_idx cs' = current_step_idx cs + 1)
            ∨ (total_steps cs ≤ current_step_idx cs
               ∧ cs' = cs ∧ n' = END)).
Proof.
  intros Hc Hstep.
  destruct (step_inv _ _ _ _ _ _ _ Hstep) as (upd & Hnode & -> & Hnext).
  cbn [node_fn] in Hnode.
  destruct (coder_agent_cursor _ _ _ _ _ Hnode) as (cs0 & Hc0 & Hupd).
  assert (cs0 = cs) as -> by congruence.
  destruct Hupd as [[Hle ->]|[Hlt [s0 ->]]].
  - exists cs. split; [done|]. split; [done|]. right.
    split; [done|]. split; [done|].
    apply next_inv in Hnext. cbn in Hnext.
    by destruct Hnext as [[_ Hn]|[-> _]].
  - exists (advance cs). split; [done|]. split; [done|]. left. by split.
Qed.

Lemma cursor_advances_by_one_witness :
  ∃ e' n' st',
    step home coder (coding_state two_steps) (sample_env quick_call [])
    = (e', Ok (n', st'))
    ∧ ∃ cs', get (coder_state st') = Some cs'
         ∧ cs_task_plan cs' = cs_task_plan (mkCoderState two_steps 0 None)
         ∧ ((current_step_idx (mkCoderState two_steps 0 None)
             < total_steps (mkCoderState two_steps 0 None)
             ∧ current_step_idx cs'
               = current_step_idx (mkCoderState two_steps 0 None) + 1)
            ∨ (total_steps (mkCoderState two_steps 0 None)
               ≤ current_step_idx (mkCoderState two_steps 0 None)
               ∧ cs' = mkCoderState two_steps 0 None ∧ n' = END)).
Proof.
  eexists _, _, _. split; [vm_compute; reflexivity|].
  eapply (cursor_advances_by_one home (coding_state two_steps)
            (mkCoderState two_steps 0 None) (sample_env quick_call [])).
  - reflexivity.
  - vm_compute. reflexivity.
Defined.
